(** * express-endpoint-counter: the statistics accumulator of [src/index.ts]

    A shallow embedding of the class [EndpointCounter]: the keyed store
    [stats : Map<string, EndpointStats>], the LRU clean-up, the update
    arithmetic of [incrementCount], the ranked and aggregate queries and
    [reset].

    Modelling choices, all read off the source:
    - a JavaScript [Map] iterates in insertion order, [set] on a present key
      keeps the key's position and [delete] followed by [set] moves it to the
      end; eviction ties and the stable sort of the ranked queries depend on
      that order, so the store is an association list in insertion order;
    - a [Date] is its millisecond time value ([<] on two dates compares the
      time values), an integer; every [new Date()] of a call is an input of
      the model;
    - [count] is an integer (JavaScript numbers are exact on integers below
      2^53);
    - the other [number] fields go through the interface [Number]; its
      instance [Binary64] is IEEE 754 binary64, the arithmetic JavaScript
      computes with, and a double is related to the real number it denotes
      by [scaled]; a second instance, of exact rationals with [Infinity],
      only serves to state what the first observation of a key stores,
      where each operation involved is exact in binary64 as well;
    - an optional string argument is an [option string]; JavaScript's
      truthiness test [if (endpoint)] fails on [undefined] and on the empty
      string;
    - the [onUpdate] hook is called once the store is updated; the model
      covers the default hook, which does nothing, and every hook that
      returns normally and leaves the counter alone, so the hook does not
      appear in the state. *)

From Stdlib Require Import ZArith List String Bool Lia QArith Lqa.
From Stdlib Require Import Permutation Sorted.
From Stdlib Require Import PrimFloat Uint63 SpecFloat FloatOps FloatAxioms.
Import ListNotations.
Open Scope string_scope.
Open Scope list_scope.
Open Scope Z_scope.

(** ** JavaScript numbers *)

(** The operations [index.ts] performs on the [number] fields of an entry. *)
Class Number (num : Type) : Type := {
  (** the literal [0] *)
  zero : num;
  (** the global [Infinity] *)
  infinity : num;
  (** [a + b] *)
  add : num -> num -> num;
  (** [a / n] for a count [n] *)
  div_count : num -> Z -> num;
  (** [Math.min(a, b)] *)
  num_min : num -> num -> num;
  (** [Math.max(a, b)] *)
  num_max : num -> num -> num;
  (** the sign of [a - b] as [Array.prototype.sort] reads a comparator's
      result: [Lt] when negative, [Gt] when positive, [Eq] otherwise (zero
      or NaN) *)
  sub_sign : num -> num -> comparison
}.

(** ** The insertion-ordered Map *)

Section MapModel.
Context {V : Type}.

(** [Map<string, V>]: the entries in iteration (insertion) order. *)
Definition JsMap : Type := list (string * V).

(** [m.size] *)
Definition map_size (m : JsMap) : Z := Z.of_nat (List.length m).

(** [m.get(k)]: [None] is [undefined]. *)
Fixpoint map_get (k : string) (m : JsMap) : option V :=
  match m with
  | [] => None
  | (k', v) :: rest => if String.eqb k' k then Some v else map_get k rest
  end.

(** [m.has(k)] *)
Definition map_has (k : string) (m : JsMap) : bool :=
  match map_get k m with Some _ => true | None => false end.

(** [m.set(k, v)]: a present key keeps its position, a new key goes last. *)
Fixpoint map_set (k : string) (v : V) (m : JsMap) : JsMap :=
  match m with
  | [] => [(k, v)]
  | (k', v') :: rest =>
      if String.eqb k' k then (k, v) :: rest else (k', v') :: map_set k v rest
  end.

(** [m.delete(k)] *)
Definition map_delete (k : string) (m : JsMap) : JsMap :=
  filter (fun kv => negb (String.eqb (fst kv) k)) m.

(** [m.clear()] *)
Definition map_clear (m : JsMap) : JsMap := [].

(** The keys of a [Map] are unique. *)
Definition unique_keys (m : JsMap) : Prop := NoDup (map fst m).

End MapModel.

Arguments JsMap V : clear implicits.

(** ** Array helpers *)

Section ArrayModel.
Context {A : Type}.

(** [arr.slice(0, end)] for an integer [end]: a negative [end] counts from
    the end of the array. *)
Definition slice0 (final : Z) (arr : list A) : list A :=
  let len := Z.of_nat (List.length arr) in
  let k := if final <? 0 then Z.max (len + final) 0 else Z.min final len in
  firstn (Z.to_nat k) arr.

(** One insertion step of the stable sort: [x] stood before every element
    of [sorted] in the input, so it passes only the elements the comparator
    puts strictly before it ([cmp x y] positive). *)
Fixpoint sort_insert (cmp : A -> A -> comparison) (x : A) (sorted : list A)
  : list A :=
  match sorted with
  | [] => [x]
  | y :: rest =>
      match cmp x y with
      | Gt => y :: sort_insert cmp x rest
      | _ => x :: y :: rest
      end
  end.

(** [arr.sort(cmp)]: the sort is stable (ECMAScript 2019), and for a
    comparator that is a consistent ordering every stable sort returns this
    list. *)
Definition array_sort (cmp : A -> A -> comparison) (arr : list A) : list A :=
  fold_right (sort_insert cmp) [] arr.

(** [arr[0]]: [None] is [undefined]. *)
Definition first_elem (arr : list A) : option A := hd_error arr.

End ArrayModel.

(** ** The data model *)

Section Accumulator.
Context {num : Type} {NumOps : Number num}.

(** [interface EndpointStats] *)
Record EndpointStats : Type := {
  count : Z;
  totalDuration : num;
  averageDuration : num;
  minDuration : num;
  maxDuration : num;
  lastAccessedAt : Z;
  method : string;
  path : string
}.

(** [private stats: Map<string, EndpointStats>] *)
Definition StatsMap : Type := JsMap EndpointStats.

(** [CounterOptions]: the accumulator reads [maxEndpoints] only (default
    1000); the other options belong to the middleware. *)
Record CounterOptions : Type := {
  maxEndpoints : Z
}.

Definition default_options : CounterOptions := {| maxEndpoints := 1000 |}.

(** The three [new Date()] readings of one [incrementCount] call, in
    program order: in [cleanupIfNeeded] (line 56), in the fresh entry
    (line 83, overwritten before it is stored) and at the update (line 93). *)
Record Clock : Type := {
  scan_time : Z;
  create_time : Z;
  update_time : Z
}.

(** ** Clean-up *)

(** The scan of lines 55-63: [lruKey] starts as [null], [lruTime] as the
    current time, and an entry replaces the candidate only when it is
    strictly older. *)
Definition lru_step (acc : option string * Z) (kv : string * EndpointStats)
  : option string * Z :=
  if lastAccessedAt (snd kv) <? snd acc
  then (Some (fst kv), lastAccessedAt (snd kv))
  else acc.

Definition lru_scan (now : Z) (st : StatsMap) : option string * Z :=
  fold_left lru_step st (None, now).

(** [if (lruKey)]: [null] and the empty string are falsy. *)
Definition truthy (s : option string) : bool :=
  match s with
  | Some k => negb (String.eqb k "")
  | None => false
  end.

(** [cleanupIfNeeded()] (lines 52-69); [now] is the reading of line 56. *)
Definition cleanupIfNeeded (opts : CounterOptions) (now : Z) (st : StatsMap)
  : StatsMap :=
  if map_size st >=? maxEndpoints opts then
    let lruKey := fst (lru_scan now st) in
    match lruKey with
    | Some k => if truthy lruKey then map_delete k st else st
    | None => st
    end
  else st.

(** ** Recording *)

(** The fresh entry of lines 77-86. *)
Definition fresh_stats (created : Z) (meth pathname : string) : EndpointStats :=
  {| count := 0;
     totalDuration := zero;
     averageDuration := zero;
     minDuration := infinity;
     maxDuration := zero;
     lastAccessedAt := created;
     method := meth;
     path := pathname |}.

(** Lines 88-93 on [currentStats]. *)
Definition update_stats (now : Z) (duration : num) (s : EndpointStats)
  : EndpointStats :=
  let count' := count s + 1 in
  let total' := add (totalDuration s) duration in
  {| count := count';
     totalDuration := total';
     averageDuration := div_count total' count';
     minDuration := num_min (minDuration s) duration;
     maxDuration := num_max (maxDuration s) duration;
     lastAccessedAt := now;
     method := method s;
     path := path s |}.

(** [incrementCount(method, pathname, duration)] (lines 74-100): the
    returned count and the store after the call. *)
Definition incrementCount (opts : CounterOptions) (clk : Clock)
    (meth pathname : string) (duration : num) (st : StatsMap)
  : Z * StatsMap :=
  let st1 := cleanupIfNeeded opts (scan_time clk) st in
  let currentStats :=
    match map_get pathname st1 with
    | Some s => s
    | None => fresh_stats (create_time clk) meth pathname
    end in
  let currentStats' := update_stats (update_time clk) duration currentStats in
  (count currentStats', map_set pathname currentStats' st1).

(** The entry [incrementCount] works on: the one stored for the key after
    the clean-up, or a fresh one. *)
Definition prior_stats (opts : CounterOptions) (clk : Clock)
    (meth pathname : string) (st : StatsMap) : EndpointStats :=
  match map_get pathname (cleanupIfNeeded opts (scan_time clk) st) with
  | Some s => s
  | None => fresh_stats (create_time clk) meth pathname
  end.

(** ** Queries *)

(** What [getStats] returns: the entry of a point lookup ([undefined] when
    absent) or a copy of the whole mapping. *)
Inductive StatsResult : Type :=
| OneEndpoint (entry : option EndpointStats)
| AllEndpoints (copy : StatsMap).

(** [getStats(endpoint?)] (lines 107-112). [new Map(this.stats)] copies the
    entries in iteration order. *)
Definition getStats (endpoint : option string) (st : StatsMap) : StatsResult :=
  match endpoint with
  | Some e => if truthy endpoint then OneEndpoint (map_get e st) else AllEndpoints st
  | None => AllEndpoints st
  end.

(** An element of the ranked results: [{ endpoint, stats }]. *)
Record Ranked : Type := {
  endpoint : string;
  stats : EndpointStats
}.

Definition to_ranked (kv : string * EndpointStats) : Ranked :=
  {| endpoint := fst kv; stats := snd kv |}.

(** The comparator [(a, b) => b[1].count - a[1].count], by the sign of its
    result. *)
Definition by_count_desc (a b : string * EndpointStats) : comparison :=
  (count (snd b) - count (snd a)) ?= 0.

(** The comparator [(a, b) => b[1].averageDuration - a[1].averageDuration]. *)
Definition by_average_desc (a b : string * EndpointStats) : comparison :=
  sub_sign (averageDuration (snd b)) (averageDuration (snd a)).

(** [getTopEndpoints(limit)] (lines 117-122); [limit] defaults to 10. *)
Definition getTopEndpoints (limit : Z) (st : StatsMap) : list Ranked :=
  map to_ranked (slice0 limit (array_sort by_count_desc st)).

(** [getSlowestEndpoints(limit)] (lines 127-132). *)
Definition getSlowestEndpoints (limit : Z) (st : StatsMap) : list Ranked :=
  map to_ranked (slice0 limit (array_sort by_average_desc st)).

(** The object [getSummary] returns. *)
Record Summary : Type := {
  totalEndpoints : Z;
  totalRequests : Z;
  sum_totalDuration : num;
  sum_averageDuration : num;
  topEndpoint : option Ranked;
  slowestEndpoint : option Ranked
}.

(** [getSummary()] (lines 137-150): both [reduce] calls run left to right
    from [0]. *)
Definition getSummary (st : StatsMap) : Summary :=
  let allStats := map snd st in
  let requests := fold_left (fun sum stat => sum + count stat) allStats 0 in
  let duration := fold_left (fun sum stat => add sum (totalDuration stat)) allStats zero in
  {| totalEndpoints := map_size st;
     totalRequests := requests;
     sum_totalDuration := duration;
     sum_averageDuration :=
       if requests >? 0 then div_count duration requests else zero;
     topEndpoint := first_elem (getTopEndpoints 1 st);
     slowestEndpoint := first_elem (getSlowestEndpoints 1 st) |}.

(** ** Reset *)

(** [reset(endpoint?)] (lines 155-161). *)
Definition reset (endpoint : option string) (st : StatsMap) : StatsMap :=
  match endpoint with
  | Some e => if truthy endpoint then map_delete e st else map_clear st
  | None => map_clear st
  end.

(** ** Sequences of calls *)

(** One [incrementCount] call with its clock readings. *)
Record Call : Type := {
  call_method : string;
  call_path : string;
  call_duration : num;
  call_clock : Clock
}.

Definition do_call (opts : CounterOptions) (c : Call) (st : StatsMap)
  : Z * StatsMap :=
  incrementCount opts (call_clock c) (call_method c) (call_path c)
    (call_duration c) st.

(** The store after a sequence of calls. *)
Definition run (opts : CounterOptions) (calls : list Call) (st : StatsMap)
  : StatsMap :=
  fold_left (fun s c => snd (do_call opts c s)) calls st.

(** The store after each call of a sequence, in order. *)
Fixpoint states (opts : CounterOptions) (calls : list Call) (st : StatsMap)
  : list StatsMap :=
  match calls with
  | [] => []
  | c :: rest =>
      let st' := snd (do_call opts c st) in st' :: states opts rest st'
  end.

(** The values returned by the calls of a sequence whose key is [k], in
    order. *)
Fixpoint returns_for (k : string) (opts : CounterOptions) (calls : list Call)
    (st : StatsMap) : list Z :=
  match calls with
  | [] => []
  | c :: rest =>
      let r := do_call opts c st in
      if String.eqb (call_path c) k
      then fst r :: returns_for k opts rest (snd r)
      else returns_for k opts rest (snd r)
  end.

(** No clean-up of the sequence removes the entry of [k]: whenever [k] is
    in the store when a call starts, it is still there after that call's
    [cleanupIfNeeded]. *)
Fixpoint never_evicted (k : string) (opts : CounterOptions)
    (calls : list Call) (st : StatsMap) : bool :=
  match calls with
  | [] => true
  | c :: rest =>
      implb (map_has k st)
            (map_has k (cleanupIfNeeded opts (scan_time (call_clock c)) st))
      && never_evicted k opts rest (snd (do_call opts c st))
  end.

(** The count stored for [k], [0] when [k] has no entry. *)
Definition count_of (k : string) (st : StatsMap) : Z :=
  match map_get k st with Some s => count s | None => 0 end.

End Accumulator.

Arguments EndpointStats num : clear implicits.
Arguments StatsMap num : clear implicits.
Arguments Ranked num : clear implicits.
Arguments Summary num : clear implicits.
Arguments Call num : clear implicits.
Arguments StatsResult num : clear implicits.
Arguments incrementCount : simpl never.
Arguments cleanupIfNeeded : simpl never.
Arguments do_call : simpl never.

(** ** The [number] type *)

(** IEEE 754 binary64, the arithmetic JavaScript performs. *)
Module Binary64.

(** A count as a [number]; counts stay below 2^53, where the conversion is
    exact. *)
Definition of_count (n : Z) : float :=
  if n <? 0
  then PrimFloat.opp (PrimFloat.of_uint63 (Uint63.of_Z (- n)))
  else PrimFloat.of_uint63 (Uint63.of_Z n).

(** [Math.min]: NaN when an argument is NaN, and [-0] below [+0]. *)
Definition js_min (a b : float) : float :=
  if PrimFloat.is_nan a || PrimFloat.is_nan b then PrimFloat.nan
  else if PrimFloat.ltb a b then a
  else if PrimFloat.ltb b a then b
  else if PrimFloat.get_sign a then a else b.

(** [Math.max]: NaN when an argument is NaN, and [+0] above [-0]. *)
Definition js_max (a b : float) : float :=
  if PrimFloat.is_nan a || PrimFloat.is_nan b then PrimFloat.nan
  else if PrimFloat.ltb a b then b
  else if PrimFloat.ltb b a then a
  else if PrimFloat.get_sign a then b else a.

Definition js_sub_sign (a b : float) : comparison :=
  let d := PrimFloat.sub a b in
  if PrimFloat.ltb d PrimFloat.zero then Lt
  else if PrimFloat.ltb PrimFloat.zero d then Gt
  else Eq.

#[global] Instance binary64_number : Number float := {|
  zero := PrimFloat.zero;
  infinity := PrimFloat.infinity;
  add := PrimFloat.add;
  div_count := fun a n => PrimFloat.div a (of_count n);
  num_min := js_min;
  num_max := js_max;
  sub_sign := js_sub_sign
|}.



End Binary64.

(** The rationals with [Infinity], to state what the first observation of
    a key stores for a rational duration [d]: the operations of that update
    ([0 + d], [d / 1], [Math.min(Infinity, d)], [Math.max(0, d)]) are exact
    in binary64 as well. What holds of sums and quotients that round is
    stated on [Binary64]. *)
Module Exact.

Inductive xnum : Type :=
| Fin (q : Q)
| PosInf.

Definition xadd (a b : xnum) : xnum :=
  match a, b with
  | Fin x, Fin y => Fin (x + y)
  | _, _ => PosInf
  end.

Definition xdiv (a : xnum) (n : Z) : xnum :=
  match a with
  | Fin x => Fin (x / inject_Z n)
  | PosInf => PosInf
  end.

Definition xmin (a b : xnum) : xnum :=
  match a, b with
  | Fin x, Fin y => if Qle_bool x y then Fin x else Fin y
  | Fin x, PosInf => Fin x
  | PosInf, _ => b
  end.

Definition xmax (a b : xnum) : xnum :=
  match a, b with
  | Fin x, Fin y => if Qle_bool x y then Fin y else Fin x
  | _, _ => PosInf
  end.

Definition xsub_sign (a b : xnum) : comparison :=
  match a, b with
  | Fin x, Fin y => (x ?= y)%Q
  | Fin _, PosInf => Lt
  | PosInf, Fin _ => Gt
  | PosInf, PosInf => Eq
  end.

#[global] Instance exact_number : Number xnum := {|
  zero := Fin 0;
  infinity := PosInf;
  add := xadd;
  div_count := xdiv;
  num_min := xmin;
  num_max := xmax;
  sub_sign := xsub_sign
|}.

End Exact.

(** ** The value of a double *)

(** The real number a double denotes, in units of 2^-1074, the smallest
    positive double: every finite double is an integer multiple of that
    unit, [m * 2^e] with [e >= -1074]. Infinities and NaN have no value. *)
Definition spec_scaled (f : spec_float) : option Z :=
  match f with
  | S754_zero _ => Some 0
  | S754_finite s m e =>
      Some ((if s then -1 else 1) * (Zpos m * 2 ^ (e + 1074)))
  | S754_infinity _ => None
  | S754_nan => None
  end.

(** The value of a [number], read off its IEEE 754 representation. *)
Definition scaled (x : float) : option Z := spec_scaled (Prim2SF x).

(** ** Updates without rounding *)


(** The distance, in units of 2^-1074, from a finite double that is not
    negative to the next double above it: one unit in the last place. *)
Definition gap_above (f : spec_float) : Z :=
  match f with
  | S754_finite false _ e => 2 ^ (e + 1074)
  | _ => 1
  end.

(** The distance to the next double below it: one unit in the last place,
    and half of it just above a power of two. *)
Definition gap_below (f : spec_float) : Z :=
  match f with
  | S754_finite false m e =>
      if (Zpos m =? 2 ^ 52) && (-1074 <? e)
      then 2 ^ (e + 1073)
      else 2 ^ (e + 1074)
  | _ => 1
  end.





(** ** Inputs and predicates of the theorems *)

(** A clock that shows [t] during a whole call. *)
Definition clock_at (t : Z) : Clock :=
  {| scan_time := t; create_time := t; update_time := t |}.

(** [incrementCount('GET', p, d)] while the clock shows [t]. *)
Definition get_call {num : Type} (p : string) (d : num) (t : Z) : Call num :=
  {| call_method := "GET"; call_path := p; call_duration := d;
     call_clock := clock_at t |}.

(** [createEndpointCounter({ maxEndpoints: n })] *)
Definition capacity (n : Z) : CounterOptions := {| maxEndpoints := n |}.

(** A duration of 100 ms. *)
Definition ms100 : float := 100%float.

(** The store of the Jest test "should evict least recently used endpoint":
    capacity 2, ['/old'] recorded at time 1 and ['/newer'] at time 6. *)
Definition old_and_newer : StatsMap float :=
  run (capacity 2) [get_call "/old" ms100 1; get_call "/newer" ms100 6] [].

(** The calls of the Jest test "should enforce maxEndpoints limit", made
    while the clock shows [t1], [t2] and [t3]. *)
Definition jest_three_endpoints (t1 t2 t3 : Z) : list (Call float) :=
  [get_call "/api/user" ms100 t1; get_call "/api/item" ms100 t2;
   get_call "/api/data" ms100 t3].

(** ['/a'], ['/b'], then ['/a'] again, one millisecond apart. *)
Definition a_b_a : list (Call float) :=
  [get_call "/a" ms100 1; get_call "/b" ms100 2; get_call "/a" ms100 3].

(** Five calls, three of them for ['/a']; with capacity 3 the last one
    evicts ['/b']. *)
Definition a_b_a_c_a : list (Call float) :=
  a_b_a ++ [get_call "/c" ms100 4; get_call "/a" ms100 5].

(** How many calls of a sequence have the key [k]. *)
Definition calls_for {num : Type} (k : string) (calls : list (Call num)) : nat :=
  List.length (filter (fun c => String.eqb (call_path c) k) calls).

(** A negative duration, -5 ms. *)
Definition minus_5ms : float := (-5)%float.

(** The store of the Jest test "should return most accessed endpoints":
    three calls for ['/popular'], two for ['/medium'], one for ['/rare']. *)
Definition popular_medium_rare : StatsMap float :=
  run default_options
    [get_call "/popular" ms100 1; get_call "/popular" ms100 2;
     get_call "/popular" ms100 3; get_call "/medium" ms100 4;
     get_call "/medium" ms100 5; get_call "/rare" ms100 6] [].

(** Descending order of [count]. *)
Definition count_desc {num : Type} (a b : string * EndpointStats num) : Prop :=
  count (snd b) <= count (snd a).

(** The entries whose [count] is [c]. *)
Definition with_count {num : Type} (c : Z) (kv : string * EndpointStats num)
  : bool :=
  count (snd kv) =? c.


(** The clock moves on between the calls of a sequence and no key is empty:
    each call scans at a time after [latest], the latest update so far. *)
Fixpoint clock_advances {num : Type} (latest : Z) (calls : list (Call num))
  : Prop :=
  match calls with
  | [] => True
  | c :: rest =>
      latest < scan_time (call_clock c) /\
      call_path c <> "" /\
      clock_advances (Z.max latest (update_time (call_clock c))) rest
  end.

(** Every entry has a non-empty key and was last touched at [latest] or
    before. *)
Definition touched_by {num : Type} (latest : Z) (st : StatsMap num) : Prop :=
  Forall (fun kv => fst kv <> "" /\ lastAccessedAt (snd kv) <= latest) st.

(** The sum of the counts of the entries. *)
Definition total_count {num : Type} (st : StatsMap num) : Z :=
  fold_right Z.add 0 (map (fun kv => count (snd kv)) st).

(** The method of the first call of a sequence whose key is [k]. *)
Fixpoint first_method_for {num : Type} (k : string) (calls : list (Call num))
  : option string :=
  match calls with
  | [] => None
  | c :: rest =>
      if String.eqb (call_path c) k then Some (call_method c)
      else first_method_for k rest
  end.

(** An entry is filed under its own path and has been counted at least
    once. *)
Definition filed_and_counted {num : Type} (kv : string * EndpointStats num)
  : Prop :=
  path (snd kv) = fst kv /\ 1 <= count (snd kv).

(** The length of [arr.slice(0, limit)] for an array of [size] elements. *)
Definition slice0_length (limit size : Z) : nat :=
  Z.to_nat (if limit <? 0 then Z.max (size + limit) 0 else Z.min limit size).

(** Every entry was last accessed at [latest] or before. *)
Definition accessed_by {num : Type} (latest : Z) (st : StatsMap num) : Prop :=
  Forall (fun kv => lastAccessedAt (snd kv) <= latest) st.


(** A store at capacity 2 whose two entries were recorded in millisecond
    7, and a store at capacity 1 whose only entry has the empty key. *)
Definition two_in_one_millisecond : StatsMap float :=
  run (capacity 2)
    [get_call "/api/user" ms100 7; get_call "/api/item" ms100 7] [].

Definition only_empty_key : StatsMap float :=
  run (capacity 1) [get_call "" ms100 1] [].

(** * Facts about the Map model *)

Section MapFacts.
Context {V : Type}.
Implicit Types (m : JsMap V) (k : string) (v : V).

Lemma map_get_set_same m k v : map_get k (map_set k v m) = Some v.
Proof.
  induction m as [|[k' v'] m IH]; simpl.
  - now rewrite String.eqb_refl.
  - destruct (String.eqb k' k) eqn:E; simpl.
    + now rewrite String.eqb_refl.
    + now rewrite E.
Qed.

Lemma map_get_set_other m k k' v :
  k' <> k -> map_get k' (map_set k v m) = map_get k' m.
Proof.
  intros Hne. induction m as [|[k0 v0] m IH]; simpl.
  - apply String.eqb_neq in Hne. rewrite String.eqb_sym. now rewrite Hne.
  - destruct (String.eqb k0 k) eqn:E; simpl.
    + apply String.eqb_eq in E. subst k0.
      assert (String.eqb k k' = false) as ->; [|reflexivity].
      apply String.eqb_neq. congruence.
    + now rewrite IH.
Qed.

Lemma map_get_delete_same m k : map_get k (map_delete k m) = None.
Proof.
  induction m as [|[k' v'] m IH]; simpl; [reflexivity|].
  destruct (String.eqb k' k) eqn:E; simpl; [exact IH|].
  now rewrite E.
Qed.

Lemma map_get_delete_other m k k' :
  k' <> k -> map_get k' (map_delete k m) = map_get k' m.
Proof.
  intros Hne. induction m as [|[k0 v0] m IH]; simpl; [reflexivity|].
  destruct (String.eqb k0 k) eqn:E; simpl.
  - apply String.eqb_eq in E. subst k0.
    assert (String.eqb k k' = false) as ->; [|exact IH].
    apply String.eqb_neq. congruence.
  - now rewrite IH.
Qed.

Lemma map_get_In m k v : map_get k m = Some v -> In (k, v) m.
Proof.
  induction m as [|[k' v'] m IH]; simpl; [discriminate|].
  destruct (String.eqb k' k) eqn:E.
  - apply String.eqb_eq in E. intros [= ->]. left. now subst.
  - intros H. right. now apply IH.
Qed.

Lemma map_get_None_not_In m k :
  map_get k m = None -> ~ In k (map fst m).
Proof.
  induction m as [|[k' v'] m IH]; simpl; [tauto|].
  destruct (String.eqb k' k) eqn:E; [discriminate|].
  apply String.eqb_neq in E. intros H [Hk | Hk]; [congruence|].
  now apply IH.
Qed.

Lemma In_map_has m k : In k (map fst m) -> map_has k m = true.
Proof.
  unfold map_has. intros Hin.
  destruct (map_get k m) eqn:E; [reflexivity|].
  now apply map_get_None_not_In in E.
Qed.

Lemma map_delete_length m k :
  (List.length (map_delete k m) <= List.length m)%nat.
Proof. apply filter_length_le. Qed.

Lemma map_delete_In_length m k :
  In k (map fst m) ->
  (List.length (map_delete k m) < List.length m)%nat.
Proof.
  induction m as [|[k' v'] m IH]; simpl; [tauto|].
  intros [Hk | Hk].
  - subst k'. rewrite String.eqb_refl. simpl.
    pose proof (map_delete_length m k). unfold map_delete in *. lia.
  - destruct (String.eqb k' k); simpl.
    + pose proof (map_delete_length m k). unfold map_delete in *. lia.
    + apply IH in Hk. unfold map_delete in *. lia.
Qed.

Lemma map_set_length m k v :
  (List.length (map_set k v m) <= S (List.length m))%nat.
Proof.
  induction m as [|[k' v'] m IH]; simpl; [lia|].
  destruct (String.eqb k' k); simpl; lia.
Qed.

Lemma map_set_absent m k v :
  map_get k m = None -> map_set k v m = m ++ [(k, v)].
Proof.
  induction m as [|[k' v'] m IH]; simpl; [reflexivity|].
  destruct (String.eqb k' k); [discriminate|].
  intros H. now rewrite IH.
Qed.

Lemma map_delete_absent m k :
  ~ In k (map fst m) -> map_delete k m = m.
Proof.
  induction m as [|[k' v'] m IH]; simpl; [reflexivity|].
  intros H. destruct (String.eqb k' k) eqn:E.
  - apply String.eqb_eq in E. tauto.
  - simpl. f_equal. apply IH. tauto.
Qed.

(** Deleting the key of an entry of a Map removes that entry and nothing
    else. *)
Lemma map_delete_middle (l1 l2 : JsMap V) k v :
  unique_keys (l1 ++ (k, v) :: l2) ->
  map_delete k (l1 ++ (k, v) :: l2) = l1 ++ l2.
Proof.
  unfold unique_keys. rewrite map_app. simpl. intros Hnd.
  apply NoDup_remove_2 in Hnd.
  unfold map_delete. rewrite filter_app. simpl.
  rewrite String.eqb_refl. simpl.
  fold (map_delete k l1). fold (map_delete k l2).
  rewrite !map_delete_absent; [reflexivity| |];
    intros H; apply Hnd; apply in_or_app; tauto.
Qed.

Lemma map_delete_idempotent m k :
  map_delete k (map_delete k m) = map_delete k m.
Proof.
  apply map_delete_absent, map_get_None_not_In, map_get_delete_same.
Qed.

Lemma map_delete_unique m k : unique_keys m -> unique_keys (map_delete k m).
Proof.
  unfold unique_keys. induction m as [|[k' v'] m IH]; simpl; [trivial|].
  intros Hnd. inversion Hnd as [|? ? Hnot Hrest]; subst.
  destruct (String.eqb k' k); simpl; [now apply IH|].
  constructor; [|now apply IH].
  intros Hin. apply Hnot.
  apply in_map_iff in Hin. destruct Hin as [[k0 v0] [Hk Hin]].
  apply filter_In in Hin. apply in_map_iff. exists (k0, v0). tauto.
Qed.

Lemma map_set_keys m k v :
  forall k', In k' (map fst (map_set k v m)) -> k' = k \/ In k' (map fst m).
Proof.
  induction m as [|[k0 v0] m IH]; simpl; intros k'.
  - intros [H | []]. now left.
  - destruct (String.eqb k0 k) eqn:E; simpl.
    + apply String.eqb_eq in E. subst. tauto.
    + intros [H | H]; [tauto|]. apply IH in H. tauto.
Qed.

Lemma map_set_unique m k v : unique_keys m -> unique_keys (map_set k v m).
Proof.
  unfold unique_keys. induction m as [|[k' v'] m IH]; simpl.
  - intros _. constructor; [simpl; tauto | constructor].
  - intros Hnd. inversion Hnd as [|? ? Hnot Hrest]; subst.
    destruct (String.eqb k' k) eqn:E; simpl.
    + apply String.eqb_eq in E. subst. now constructor.
    + constructor; [|now apply IH].
      intros Hin. apply map_set_keys in Hin. apply String.eqb_neq in E.
      destruct Hin; [congruence | tauto].
Qed.

Lemma map_set_Forall (P : string * V -> Prop) k v m :
  P (k, v) -> Forall P m -> Forall P (map_set k v m).
Proof.
  intros Hv. induction 1 as [|[k' v'] m Hx Hm IH]; simpl.
  - constructor; [exact Hv | constructor].
  - destruct (String.eqb k' k); constructor; auto.
Qed.

End MapFacts.

(** * The clean-up *)

Section CleanupFacts.
Context {num : Type} {NumOps : Number num}.
Implicit Types (st : StatsMap num) (k : string) (opts : CounterOptions).

(** What the scan of [cleanupIfNeeded] finds: either no entry is older than
    the starting time and the candidate is unchanged, or the candidate is
    the first of the oldest entries. *)
Lemma lru_scan_first_oldest st : forall (acc : option string * Z),
  (Forall (fun kv => snd acc <= lastAccessedAt (snd kv)) st /\
   fold_left lru_step st acc = acc)
  \/
  (exists before k e after,
     st = before ++ (k, e) :: after /\
     fold_left lru_step st acc = (Some k, lastAccessedAt e) /\
     lastAccessedAt e < snd acc /\
     Forall (fun kv => lastAccessedAt e < lastAccessedAt (snd kv)) before /\
     Forall (fun kv => lastAccessedAt e <= lastAccessedAt (snd kv)) after).
Proof.
  induction st as [|[k0 e0] rest IH]; intros acc; simpl.
  - left. split; [constructor | reflexivity].
  - destruct (lastAccessedAt e0 <? snd acc) eqn:Hlt.
    + assert (lru_step acc (k0, e0) = (Some k0, lastAccessedAt e0)) as ->
        by (unfold lru_step; simpl; now rewrite Hlt).
      apply Z.ltb_lt in Hlt.
      destruct (IH (Some k0, lastAccessedAt e0))
        as [[Hall Heq] | (before & k & e & after & Hst & Hres & Hlow & Hb & Ha)].
      * right. exists [], k0, e0, rest. simpl in Hall.
        split; [reflexivity|]. split; [exact Heq|]. split; [exact Hlt|].
        split; [constructor | exact Hall].
      * right. exists ((k0, e0) :: before), k, e, after. simpl in Hlow.
        subst rest. split; [reflexivity|]. split; [exact Hres|].
        split; [lia|]. split; [|exact Ha].
        constructor; [simpl; lia | exact Hb].
    + assert (lru_step acc (k0, e0) = acc) as ->
        by (unfold lru_step; simpl; now rewrite Hlt).
      apply Z.ltb_ge in Hlt.
      destruct (IH acc)
        as [[Hall Heq] | (before & k & e & after & Hst & Hres & Hlow & Hb & Ha)].
      * left. split; [constructor; [exact Hlt | exact Hall] | exact Heq].
      * right. exists ((k0, e0) :: before), k, e, after.
        subst rest. split; [reflexivity|]. split; [exact Hres|].
        split; [exact Hlow|]. split; [|exact Ha].
        constructor; [simpl; lia | exact Hb].
Qed.

(** [cleanupIfNeeded] either leaves the store alone or deletes one key, the
    key of the first of the oldest entries. *)
Lemma cleanup_cases opts now st :
  cleanupIfNeeded opts now st = st
  \/
  (exists before k e after,
     st = before ++ (k, e) :: after /\
     cleanupIfNeeded opts now st = map_delete k st /\
     lastAccessedAt e < now /\
     Forall (fun kv => lastAccessedAt e < lastAccessedAt (snd kv)) before /\
     Forall (fun kv => lastAccessedAt e <= lastAccessedAt (snd kv)) after).
Proof.
  unfold cleanupIfNeeded.
  destruct (map_size st >=? maxEndpoints opts); [|now left].
  unfold lru_scan.
  destruct (lru_scan_first_oldest st (None, now))
    as [[_ Heq] | (before & k & e & after & Hst & Hres & Hlow & Hb & Ha)].
  - rewrite Heq. now left.
  - rewrite Hres. simpl.
    destruct (negb (String.eqb k "")); [|now left].
    right. exists before, k, e, after. auto.
Qed.

(** The clean-up never changes an entry: a key keeps its entry or loses
    it. *)
Lemma cleanup_get opts now st k :
  map_get k (cleanupIfNeeded opts now st) = map_get k st \/
  map_get k (cleanupIfNeeded opts now st) = None.
Proof.
  destruct (cleanup_cases opts now st)
    as [-> | (before & k' & e & after & _ & -> & _)]; [now left|].
  destruct (String.eqb_spec k k') as [-> | Hne].
  - right. apply map_get_delete_same.
  - left. now apply map_get_delete_other.
Qed.

Lemma cleanup_length opts now st :
  (List.length (cleanupIfNeeded opts now st) <= List.length st)%nat.
Proof.
  destruct (cleanup_cases opts now st)
    as [-> | (before & k' & e & after & _ & -> & _)]; [lia|].
  apply map_delete_length.
Qed.

Lemma cleanup_unique opts now st :
  unique_keys st -> unique_keys (cleanupIfNeeded opts now st).
Proof.
  intros Hu. destruct (cleanup_cases opts now st)
    as [-> | (before & k' & e & after & _ & -> & _)]; [exact Hu|].
  now apply map_delete_unique.
Qed.

Lemma cleanup_Forall (P : string * EndpointStats num -> Prop) opts now st :
  Forall P st -> Forall P (cleanupIfNeeded opts now st).
Proof.
  intros HP. destruct (cleanup_cases opts now st)
    as [-> | (before & k' & e & after & _ & -> & _)]; [exact HP|].
  unfold map_delete. rewrite Forall_forall in *.
  intros x Hx. apply filter_In in Hx. now apply HP.
Qed.

(** Every operation keeps the keys of the store unique. *)
Lemma incrementCount_unique opts clk meth pathname duration st :
  unique_keys st ->
  unique_keys (snd (incrementCount opts clk meth pathname duration st)).
Proof.
  intros Hu. unfold incrementCount. simpl.
  now apply map_set_unique, cleanup_unique.
Qed.

Lemma run_unique opts calls : forall st,
  unique_keys st -> unique_keys (run opts calls st).
Proof.
  unfold run. induction calls as [|c calls IH]; intros st Hu; simpl; [exact Hu|].
  apply IH. unfold do_call. now apply incrementCount_unique.
Qed.

End CleanupFacts.

(** * Recording *)

Section RecordFacts.
Context {num : Type} {NumOps : Number num}.
Implicit Types (st : StatsMap num) (k : string) (opts : CounterOptions).

Lemma incrementCount_get_same opts clk meth pathname duration st :
  map_get pathname (snd (incrementCount opts clk meth pathname duration st))
  = Some (update_stats (update_time clk) duration
            (prior_stats opts clk meth pathname st)).
Proof. unfold incrementCount. simpl. apply map_get_set_same. Qed.

Lemma incrementCount_get_other opts clk meth pathname duration st k :
  k <> pathname ->
  map_get k (snd (incrementCount opts clk meth pathname duration st))
  = map_get k (cleanupIfNeeded opts (scan_time clk) st).
Proof. intros Hne. unfold incrementCount. simpl. now apply map_get_set_other. Qed.

Lemma incrementCount_returns opts clk meth pathname duration st :
  fst (incrementCount opts clk meth pathname duration st)
  = count_of pathname (cleanupIfNeeded opts (scan_time clk) st) + 1.
Proof.
  unfold incrementCount, count_of. simpl.
  destruct (map_get pathname _); reflexivity.
Qed.

(** [1 + ... + 1]: the counts [c + 1, ..., c + n]. *)
Lemma counting_shift (c : Z) (n : nat) :
  map (fun i => c + 1 + Z.of_nat i) (seq 1 n)
  = map (fun i => c + Z.of_nat i) (seq 2 n).
Proof.
  rewrite <- (seq_shift n 1), map_map.
  apply map_ext. intros i. lia.
Qed.

End RecordFacts.

Section CountFacts.
Context {num : Type} {NumOps : Number num}.
Implicit Types (st : StatsMap num) (k : string) (opts : CounterOptions).

(** While no clean-up removes the entry of [k], the calls for [k] return
    the stored count plus 1, 2, 3, ... *)
Lemma returns_count_up_from opts k (calls : list (Call num)) : forall st,
  never_evicted k opts calls st = true ->
  returns_for k opts calls st
  = map (fun i => count_of k st + Z.of_nat i) (seq 1 (calls_for k calls)).
Proof.
  induction calls as [|c calls IH]; intros st Hkept; [reflexivity|].
  cbn [never_evicted] in Hkept.
  apply andb_true_iff in Hkept. destruct Hkept as [Hhere Hrest].
  set (st1 := cleanupIfNeeded opts (scan_time (call_clock c)) st) in *.
  assert (Hsame : count_of k st1 = count_of k st).
  { unfold count_of, map_has in *.
    destruct (cleanup_get opts (scan_time (call_clock c)) st k) as [E | E];
      fold st1 in E; rewrite E; [reflexivity|].
    rewrite E in Hhere. destruct (map_get k st); [discriminate | reflexivity]. }
  specialize (IH _ Hrest).
  unfold calls_for in *. cbn [returns_for filter].
  rewrite IH. unfold do_call.
  destruct (String.eqb_spec (call_path c) k) as [Hk | Hk].
  - subst k. cbn [List.length seq map].
    rewrite incrementCount_returns. fold st1. rewrite Hsame.
    f_equal; try lia.
    assert (count_of (call_path c)
              (snd (incrementCount opts (call_clock c) (call_method c)
                      (call_path c) (call_duration c) st))
            = count_of (call_path c) st + 1) as ->.
    { unfold count_of at 1. rewrite incrementCount_get_same.
      unfold prior_stats. fold st1. rewrite <- Hsame. unfold count_of.
      destruct (map_get (call_path c) st1); reflexivity. }
    apply counting_shift.
  - f_equal.
    unfold count_of at 1.
    rewrite incrementCount_get_other by congruence. fold st1.
    fold (count_of k st1). now rewrite Hsame.
Qed.

End CountFacts.

(** [reduce] from the left and the sum of the counts agree. *)
Lemma fold_left_count_sum {num : Type} (l : list (EndpointStats num)) :
  forall acc,
    fold_left (fun sum stat => sum + count stat) l acc
    = acc + fold_right Z.add 0 (map (@count num) l).
Proof.
  induction l as [|s l IH]; intros acc; simpl; [lia|].
  rewrite IH. lia.
Qed.

(** * Sorting and slicing *)

Section SortFacts.
Context {A : Type} (cmp : A -> A -> comparison).

Lemma sort_insert_perm x l : Permutation (sort_insert cmp x l) (x :: l).
Proof.
  induction l as [|y l IH]; simpl; [reflexivity|].
  destruct (cmp x y); try reflexivity.
  rewrite IH. apply perm_swap.
Qed.

Lemma array_sort_perm l : Permutation (array_sort cmp l) l.
Proof.
  induction l as [|x l IH]; simpl; [reflexivity|].
  rewrite sort_insert_perm. now apply perm_skip.
Qed.

(** An element moves only past elements of another class, so the elements
    of one class keep their order. *)
Lemma sort_insert_stable (p : A -> bool) x l :
  (forall y, cmp x y = Gt -> p x = true -> p y = false) ->
  filter p (sort_insert cmp x l) = filter p (x :: l).
Proof.
  intros Hclass. induction l as [|y l IH]; simpl; [reflexivity|].
  destruct (cmp x y) eqn:E; try reflexivity.
  simpl in *. rewrite IH.
  destruct (p x) eqn:Px; [|reflexivity].
  now rewrite (Hclass y E eq_refl).
Qed.

Lemma array_sort_stable (p : A -> bool) l :
  (forall x y, cmp x y = Gt -> p x = true -> p y = false) ->
  filter p (array_sort cmp l) = filter p l.
Proof.
  intros Hclass. induction l as [|x l IH]; simpl; [reflexivity|].
  rewrite sort_insert_stable by (apply Hclass).
  simpl. now rewrite IH.
Qed.

Lemma slice0_nonneg (n : Z) (l : list A) :
  0 <= n -> slice0 n l = firstn (Z.to_nat n) l.
Proof.
  intros Hn. unfold slice0.
  destruct (n <? 0) eqn:E; [apply Z.ltb_lt in E; lia|].
  destruct (Z.le_gt_cases n (Z.of_nat (List.length l))) as [Hle | Hgt].
  - now rewrite Z.min_l.
  - rewrite Z.min_r by lia. rewrite Nat2Z.id.
    rewrite !firstn_all2; [reflexivity | lia | lia].
Qed.

Lemma slice0_all (n : Z) (l : list A) :
  Z.of_nat (List.length l) <= n -> slice0 n l = l.
Proof.
  intros Hn. rewrite slice0_nonneg by lia.
  apply firstn_all2. lia.
Qed.

End SortFacts.

Section RankFacts.
Context {num : Type} {NumOps : Number num}.
Implicit Types (st : StatsMap num).

Lemma by_count_desc_Gt (a b : string * EndpointStats num) :
  by_count_desc a b = Gt <-> count (snd a) < count (snd b).
Proof. unfold by_count_desc. rewrite Z.compare_gt_iff. lia. Qed.

Lemma sort_insert_count_desc x (l : list (string * EndpointStats num)) :
  StronglySorted count_desc l ->
  StronglySorted count_desc (sort_insert by_count_desc x l).
Proof.
  induction 1 as [|y l Hsorted IH Hall]; simpl.
  - constructor; constructor.
  - destruct (by_count_desc x y) eqn:E.
    + assert (Hxy : count_desc x y).
      { unfold count_desc. unfold by_count_desc in E.
        apply Z.compare_eq in E. lia. }
      constructor; [now constructor|].
      constructor; [exact Hxy|].
      eapply Forall_impl; [|exact Hall]. unfold count_desc in *. intros; lia.
    + assert (Hxy : count_desc x y).
      { unfold count_desc. unfold by_count_desc in E.
        rewrite Z.compare_lt_iff in E. lia. }
      constructor; [now constructor|].
      constructor; [exact Hxy|].
      eapply Forall_impl; [|exact Hall]. unfold count_desc in *. intros; lia.
    + apply by_count_desc_Gt in E.
      constructor; [exact IH|].
      eapply Permutation_Forall; [symmetry; apply sort_insert_perm|].
      constructor; [unfold count_desc; lia | exact Hall].
Qed.

Lemma array_sort_count_desc st :
  StronglySorted count_desc (array_sort by_count_desc st).
Proof.
  induction st as [|x st IH]; simpl; [constructor|].
  now apply sort_insert_count_desc.
Qed.

End RankFacts.

(** * Doubles and their values *)

Section FloatFacts.





















End FloatFacts.

(** * The capacity bound when the clock advances *)

Section BoundFacts.
Context {num : Type} {NumOps : Number num}.
Implicit Types (st : StatsMap num) (opts : CounterOptions).

(** A full store whose entries are all older than the scan loses an entry. *)
Lemma cleanup_evicts opts now latest st :
  1 <= maxEndpoints opts ->
  maxEndpoints opts <= map_size st ->
  touched_by latest st ->
  latest < now ->
  (List.length (cleanupIfNeeded opts now st) < List.length st)%nat.
Proof.
  intros Hcap Hfull Hst Hnow. unfold cleanupIfNeeded, lru_scan.
  destruct (map_size st >=? maxEndpoints opts) eqn:E;
    [|rewrite Z.geb_leb in E; apply Z.leb_gt in E; lia].
  destruct (lru_scan_first_oldest st (None, now))
    as [[Hall _] | (before & k & e & after & Heq & Hres & _)].
  - destruct st as [|kv st]; [unfold map_size in Hfull; simpl in Hfull; lia|].
    inversion Hall; subst. inversion Hst; subst. simpl in *. lia.
  - rewrite Hres. cbn [fst truthy].
    assert (Hin : In (k, e) st) by (rewrite Heq; apply in_elt).
    unfold touched_by in Hst. rewrite Forall_forall in Hst.
    destruct (Hst _ Hin) as [Hk _]. simpl in Hk.
    apply String.eqb_neq in Hk. rewrite Hk. cbn [negb].
    apply map_delete_In_length.
    apply in_map_iff. exists (k, e). split; [reflexivity | exact Hin].
Qed.

Lemma incrementCount_bounded opts clk meth pathname duration latest st :
  1 <= maxEndpoints opts ->
  map_size st <= maxEndpoints opts ->
  touched_by latest st ->
  latest < scan_time clk ->
  pathname <> "" ->
  map_size (snd (incrementCount opts clk meth pathname duration st))
  <= maxEndpoints opts /\
  touched_by (Z.max latest (update_time clk))
    (snd (incrementCount opts clk meth pathname duration st)).
Proof.
  intros Hcap Hsize Hst Hnow Hkey. unfold incrementCount. cbn [snd]. split.
  - unfold map_size in *.
    pose proof (map_set_length (cleanupIfNeeded opts (scan_time clk) st)
                  pathname
                  (update_stats (update_time clk) duration
                     match map_get pathname
                             (cleanupIfNeeded opts (scan_time clk) st) with
                     | Some s => s
                     | None => fresh_stats (create_time clk) meth pathname
                     end)) as Hset.
    destruct (Z.eq_dec (Z.of_nat (List.length st)) (maxEndpoints opts))
      as [Hfull | Hroom].
    + pose proof (cleanup_evicts opts (scan_time clk) latest st Hcap
                    ltac:(unfold map_size; lia) Hst Hnow). lia.
    + pose proof (cleanup_length opts (scan_time clk) st). lia.
  - apply map_set_Forall; [simpl; split; [exact Hkey | lia]|].
    apply cleanup_Forall. eapply Forall_impl; [|exact Hst].
    simpl. intros kv [? ?]. split; [assumption | lia].
Qed.

(** X3: for a capacity of at least 1, as long as the clock advances between
    calls and no key is empty, the store never holds more entries than
    [maxEndpoints]. *)
Lemma size_bounded_when_clock_advances opts (calls : list (Call num)) :
  forall latest st,
    1 <= maxEndpoints opts ->
    map_size st <= maxEndpoints opts ->
    touched_by latest st ->
    clock_advances latest calls ->
    Forall (fun st' => map_size st' <= maxEndpoints opts)
      (states opts calls st).
Proof.
  induction calls as [|c calls IH]; intros latest st Hcap Hsize Hst Hclock;
    cbn [states]; [constructor|].
  destruct Hclock as (Hnow & Hkey & Hrest).
  destruct (incrementCount_bounded opts (call_clock c) (call_method c)
              (call_path c) (call_duration c) latest st
              Hcap Hsize Hst Hnow Hkey) as [Hsize' Hst'].
  constructor; [exact Hsize'|].
  exact (IH _ _ Hcap Hsize' Hst' Hrest).
Qed.

End BoundFacts.

(** * The repository's tests on the model *)

(** "should track timing statistics" *)
Example test_timing_statistics :
  map_get "/api/test"
    (run default_options
       [get_call "/api/test" 100%float 1; get_call "/api/test" 200%float 2;
        get_call "/api/test" 150%float 3] [])
  = Some {| count := 3;
            totalDuration := 450%float;
            averageDuration := 150%float;
            minDuration := 100%float;
            maxDuration := 200%float;
            lastAccessedAt := 3;
            method := "GET";
            path := "/api/test" |}.
Proof. vm_compute. reflexivity. Qed.

(** "should return most accessed endpoints" *)
Example test_top_endpoints :
  map (fun r => (endpoint r, count (stats r)))
    (getTopEndpoints 2 popular_medium_rare)
  = [("/popular", 3); ("/medium", 2)].
Proof. vm_compute. reflexivity. Qed.

(** "should provide accurate summary statistics" *)
Example test_summary :
  let s :=
    getSummary
      (run default_options
         [get_call "/users" 100%float 1; get_call "/users" 200%float 2;
          get_call "/users" 300%float 3; get_call "/products" 150%float 4] [])
  in
  (totalEndpoints s, totalRequests s, sum_totalDuration s,
   sum_averageDuration s, option_map (@endpoint float) (topEndpoint s))
  = (2, 4, 750%float, 187.5%float, Some "/users").
Proof. vm_compute. reflexivity. Qed.

(** "should evict least recently used endpoint" *)
Example test_evicts_least_recently_used :
  map fst
    (snd (incrementCount (capacity 2) (clock_at 11) "GET" "/newest" ms100
            old_and_newer))
  = ["/newer"; "/newest"].
Proof. vm_compute. reflexivity. Qed.

(** The value of a double, and the gaps to its neighbours as [next_up] and
    [next_down] give them. *)
Example test_scaled :
  scaled 0x1p-1074%float = Some 1 /\
  scaled 0.5%float = Some (2 ^ 1073) /\
  scaled 100%float = Some (100 * 2 ^ 1074) /\
  scaled (-3)%float = Some (- 3 * 2 ^ 1074) /\
  scaled PrimFloat.infinity = None /\
  scaled PrimFloat.nan = None.
Proof. vm_compute. repeat split. Qed.

Example test_gaps :
  Forall (fun x =>
            option_map (fun z => z + gap_above (Prim2SF x)) (scaled x)
            = scaled (PrimFloat.next_up x) /\
            option_map (fun z => z - gap_below (Prim2SF x)) (scaled x)
            = scaled (PrimFloat.next_down x))
    [0%float; 0x1p-1074%float; 0x1p-1022%float; 1%float; 3%float;
     100%float; 150.5%float; 0x1p52%float; 0x1p53%float].
Proof. repeat constructor; vm_compute; reflexivity. Qed.

(** * The claims of the specification *)

(** C1 says that updating an existing key while the store is at capacity
    removes no entry. [incrementCount] runs the clean-up before it looks
    the key up, so it does: at capacity 2 with ['/old'] and ['/newer']
    stored, updating ['/newer'] removes ['/old'], and updating ['/old']
    evicts its own entry before the update, so that its count restarts at
    1 instead of reaching 2. *)
Theorem update_at_capacity_evicts :
  map_size old_and_newer = maxEndpoints (capacity 2) /\
  map_has "/old" old_and_newer = true /\
  map_has "/newer" old_and_newer = true /\
  map_has "/old"
    (snd (incrementCount (capacity 2) (clock_at 11) "GET" "/newer" ms100
            old_and_newer)) = false /\
  count_of "/old" old_and_newer = 1 /\
  fst (incrementCount (capacity 2) (clock_at 11) "GET" "/old" ms100
         old_and_newer) = 1.
Proof. vm_compute. repeat split. Qed.

(** C2 says that the store never holds more than [maxEndpoints] entries.
    It does when three new keys are recorded within one millisecond at
    capacity 2: no entry is strictly older than the time of the scan,
    nothing is evicted and the store holds 3 entries. Likewise at capacity
    1 when the oldest entry has the empty key, which [if (lruKey)] takes
    for no candidate. *)
Theorem same_millisecond_exceeds_capacity :
  map_size (run (capacity 2) (jest_three_endpoints 7 7 7) []) = 3 /\
  map_size (run (capacity 1) [get_call "" ms100 1; get_call "/a" ms100 2] [])
  = 2.
Proof. vm_compute. split; reflexivity. Qed.

(** C3, as stated, fails: at capacity 1 the second call for ['/a'] returns 1,
    not 2, because the call for ['/b'] in between evicted the entry. *)
Lemma count_restarts_after_eviction :
  returns_for "/a" (capacity 1) a_b_a [] = [1; 1] /\
  returns_for "/a" (capacity 1) a_b_a [] <> [1; 2].
Proof. vm_compute. split; [reflexivity | discriminate]. Qed.

(** C3, amended: starting from a store with no entry for [k], and as long
    as no clean-up removes the entry of [k], the n-th call for [k] returns
    n: the returned values are 1, 2, 3, ... *)
Theorem returns_count_up_while_kept
    {num : Type} {NumOps : Number num}
    (opts : CounterOptions) (k : string) (calls : list (Call num))
    (st : StatsMap num) :
  map_has k st = false ->
  never_evicted k opts calls st = true ->
  returns_for k opts calls st = map Z.of_nat (seq 1 (calls_for k calls)).
Proof.
  intros Hnew Hkept. rewrite (returns_count_up_from _ _ _ _ Hkept).
  unfold count_of, map_has in *.
  destruct (map_get k st); [discriminate|].
  apply map_ext. intros i. lia.
Qed.

(** With capacity 3 the fifth call evicts ['/b'], and the three calls for
    ['/a'] return 1, 2, 3. *)
Lemma returns_count_up_while_kept_witness :
  returns_for "/a" (capacity 3) a_b_a_c_a [] = map Z.of_nat (seq 1 3).
Proof.
  apply (returns_count_up_while_kept (capacity 3) "/a" a_b_a_c_a []).
  - reflexivity.
  - vm_compute. reflexivity.
Defined.

(** C4 says that a full store that receives a new key loses the first of
    its oldest entries. It loses none when no entry is strictly older than
    the time of the scan, as for a third key recorded in the millisecond of
    the first two at capacity 2, and none when the oldest entry has the
    empty key, which [if (lruKey)] takes for no candidate: the new key is
    appended and every entry stays. *)
Theorem full_store_evicts_nothing :
  map_size two_in_one_millisecond = maxEndpoints (capacity 2) /\
  map_has "/api/data" two_in_one_millisecond = false /\
  snd (incrementCount (capacity 2) (clock_at 7) "GET" "/api/data" ms100
         two_in_one_millisecond)
  = two_in_one_millisecond
    ++ [("/api/data", update_stats 7 ms100 (fresh_stats 7 "GET" "/api/data"))] /\
  map_size only_empty_key = maxEndpoints (capacity 1) /\
  map_has "/a" only_empty_key = false /\
  snd (incrementCount (capacity 1) (clock_at 2) "GET" "/a" ms100
         only_empty_key)
  = only_empty_key
    ++ [("/a", update_stats 2 ms100 (fresh_stats 2 "GET" "/a"))].
Proof. vm_compute. repeat split. Qed.

(** C5, as stated, fails: [incrementCount] validates nothing. A call with
    the duration -5 creates an entry, and so does a call with the empty
    key. *)
Lemma invalid_input_is_recorded :
  map_has "/a"
    (snd (incrementCount default_options (clock_at 1) "GET" "/a" minus_5ms []))
  = true /\
  map_has ""
    (snd (incrementCount default_options (clock_at 1) "GET" "" ms100 []))
  = true.
Proof. vm_compute. split; reflexivity. Qed.

(** C5, amended: [incrementCount] accepts every method, key and duration,
    a negative duration and the empty key included: it signals no error,
    stores the updated or newly created entry under the key and returns
    that entry's count. *)
Theorem incrementCount_accepts_any_input
    {num : Type} {NumOps : Number num}
    (opts : CounterOptions) (clk : Clock) (meth pathname : string)
    (duration : num) (st : StatsMap num) :
  let updated :=
    update_stats (update_time clk) duration
      (prior_stats opts clk meth pathname st) in
  map_get pathname (snd (incrementCount opts clk meth pathname duration st))
  = Some updated /\
  fst (incrementCount opts clk meth pathname duration st) = count updated /\
  totalDuration updated
  = add (totalDuration (prior_stats opts clk meth pathname st)) duration.
Proof.
  cbv zeta. split; [apply incrementCount_get_same|].
  split; reflexivity.
Qed.




(** C7, as stated, fails for a negative limit: [slice(0, -1)] drops the last
    element only, so [getTopEndpoints(-1)] on a store of two entries returns
    one entry, not the empty sequence. *)
Lemma negative_limit_is_not_empty :
  List.length (getTopEndpoints (-1) old_and_newer) = 1%nat /\
  getTopEndpoints (-1) old_and_newer <> [].
Proof. vm_compute. split; [reflexivity | discriminate]. Qed.

(** C7, amended: for every store and every integer limit that is not
    negative, [getTopEndpoints(limit)] is the first [limit] elements of the
    entries sorted by descending [count], entries with equal counts in the
    store's iteration order; the limit 0 gives the empty sequence and a
    limit of at least the store size gives the whole sorted sequence. *)
Theorem getTopEndpoints_sorted_stable_truncated
    {num : Type} {NumOps : Number num} (limit : Z) (st : StatsMap num) :
  0 <= limit ->
  let sorted := array_sort by_count_desc st in
  Permutation sorted st /\
  StronglySorted count_desc sorted /\
  (forall c, filter (with_count c) sorted = filter (with_count c) st) /\
  getTopEndpoints limit st = map to_ranked (firstn (Z.to_nat limit) sorted) /\
  (limit = 0 -> getTopEndpoints limit st = []) /\
  (map_size st <= limit -> getTopEndpoints limit st = map to_ranked sorted).
Proof.
  intros Hlimit sorted.
  assert (Hperm : Permutation sorted st) by apply array_sort_perm.
  split; [exact Hperm|].
  split; [apply array_sort_count_desc|].
  split.
  { intros c. apply array_sort_stable. intros x y Hgt Hx.
    apply by_count_desc_Gt in Hgt. unfold with_count in *.
    apply Z.eqb_eq in Hx. apply Z.eqb_neq. lia. }
  unfold getTopEndpoints. fold sorted.
  split; [now rewrite slice0_nonneg|].
  split.
  - intros ->. now rewrite slice0_nonneg.
  - intros Hsize. rewrite slice0_all; [reflexivity|].
    unfold map_size in Hsize. rewrite (Permutation_length Hperm). exact Hsize.
Qed.

(** The two most accessed of ['/popular'], ['/medium'] and ['/rare']. *)
Lemma getTopEndpoints_sorted_stable_truncated_witness :
  let sorted := array_sort by_count_desc popular_medium_rare in
  Permutation sorted popular_medium_rare /\
  StronglySorted count_desc sorted /\
  (forall c, filter (with_count c) sorted
             = filter (with_count c) popular_medium_rare) /\
  getTopEndpoints 2 popular_medium_rare
  = map to_ranked (firstn (Z.to_nat 2) sorted) /\
  (2 = 0 -> getTopEndpoints 2 popular_medium_rare = []) /\
  (map_size popular_medium_rare <= 2 ->
   getTopEndpoints 2 popular_medium_rare = map to_ranked sorted).
Proof.
  apply (getTopEndpoints_sorted_stable_truncated 2 popular_medium_rare). lia.
Defined.

(** C8: [getSummary] sums the counts and the total durations of the
    entries; its [averageDuration] is the quotient of the two sums when the
    number of requests is positive and [0] otherwise; on the empty store it
    returns zeros with [topEndpoint] and [slowestEndpoint] undefined. The
    function is total: no case raises an error. *)
Theorem getSummary_average
    {num : Type} {NumOps : Number num} (st : StatsMap num) :
  totalRequests (getSummary st)
  = fold_right Z.add 0 (map (fun kv => count (snd kv)) st) /\
  sum_totalDuration (getSummary st)
  = fold_left add (map (fun kv => totalDuration (snd kv)) st) zero /\
  sum_averageDuration (getSummary st)
  = (if totalRequests (getSummary st) >? 0
     then div_count (sum_totalDuration (getSummary st))
            (totalRequests (getSummary st))
     else zero) /\
  getSummary (@nil (string * EndpointStats num))
  = {| totalEndpoints := 0;
       totalRequests := 0;
       sum_totalDuration := zero;
       sum_averageDuration := zero;
       topEndpoint := None;
       slowestEndpoint := None |}.
Proof.
  split; [|split; [|split]]; try reflexivity.
  - unfold getSummary. cbn [totalRequests].
    rewrite fold_left_count_sum, map_map. reflexivity.
  - unfold getSummary. cbn [sum_totalDuration].
    generalize (@zero num NumOps).
    induction st as [|kv st IH]; intros acc; simpl; [reflexivity|].
    apply IH.
Qed.

(** C9, as stated, fails for the empty key: [reset('')] empties the whole
    store, so the entry of ['/newer'] does not survive it. *)
Lemma reset_empty_key_clears_all :
  map_has "/newer" old_and_newer = true /\
  map_has "/newer" (reset (Some "") old_and_newer) = false.
Proof. vm_compute. split; reflexivity. Qed.

(** C9, amended: for every non-empty key [k], [reset(k)] removes the entry
    of [k], leaves every other entry as it was and in place, and changes
    nothing when [k] is absent; [reset()] empties the store; both are
    idempotent. *)
Theorem reset_removes_exactly
    {num : Type} {NumOps : Number num} (k : string) (st : StatsMap num) :
  k <> "" ->
  map_get k (reset (Some k) st) = None /\
  (forall k', k' <> k -> map_get k' (reset (Some k) st) = map_get k' st) /\
  reset (Some k) st = filter (fun kv => negb (String.eqb (fst kv) k)) st /\
  (map_has k st = false -> reset (Some k) st = st) /\
  reset None st = [] /\
  reset (Some k) (reset (Some k) st) = reset (Some k) st /\
  reset None (reset None st) = reset None st.
Proof.
  intros Hk. apply String.eqb_neq in Hk.
  unfold reset, truthy. rewrite Hk. cbn [negb].
  repeat split.
  - apply map_get_delete_same.
  - intros k' Hne. now apply map_get_delete_other.
  - intros Habs. apply map_delete_absent, map_get_None_not_In.
    unfold map_has in Habs. destruct (map_get k st); [discriminate | reflexivity].
  - apply map_delete_idempotent.
Qed.

(** [reset('/old')] on the store of ['/old'] and ['/newer']. *)
Lemma reset_removes_exactly_witness :
  map_get "/old" (reset (Some "/old") old_and_newer) = None /\
  (forall k', k' <> "/old" ->
     map_get k' (reset (Some "/old") old_and_newer) = map_get k' old_and_newer) /\
  reset (Some "/old") old_and_newer
  = filter (fun kv => negb (String.eqb (fst kv) "/old")) old_and_newer /\
  (map_has "/old" old_and_newer = false ->
     reset (Some "/old") old_and_newer = old_and_newer) /\
  reset None old_and_newer = [] /\
  reset (Some "/old") (reset (Some "/old") old_and_newer)
  = reset (Some "/old") old_and_newer /\
  reset None (reset None old_and_newer) = reset None old_and_newer.
Proof.
  apply (reset_removes_exactly "/old" old_and_newer). discriminate.
Defined.

(** C10: [getStats('')] returns the copy of the whole mapping, as
    [getStats()] does, and not the entry stored under the empty key, also
    right after [incrementCount] has stored an entry under that key. *)
Theorem getStats_empty_key_returns_all
    {num : Type} {NumOps : Number num}
    (opts : CounterOptions) (clk : Clock) (meth : string) (duration : num)
    (st : StatsMap num) :
  getStats (Some "") st = AllEndpoints st /\
  getStats (Some "") st = getStats None st /\
  exists e,
    map_get "" (snd (incrementCount opts clk meth "" duration st)) = Some e /\
    getStats (Some "") (snd (incrementCount opts clk meth "" duration st))
    = AllEndpoints (snd (incrementCount opts clk meth "" duration st)) /\
    getStats (Some "") (snd (incrementCount opts clk meth "" duration st))
    <> OneEndpoint (Some e).
Proof.
  split; [reflexivity|]. split; [reflexivity|].
  eexists. split; [apply incrementCount_get_same|].
  split; [reflexivity | discriminate].
Qed.

(** * Further properties of the code *)

(** ** [cleanupIfNeeded] *)

Section CleanupProperties.
Context {num : Type} {NumOps : Number num}.
Implicit Types (st : StatsMap num) (k : string) (opts : CounterOptions).

Lemma map_get_middle (before after : StatsMap num) k (e : EndpointStats num) :
  unique_keys (before ++ (k, e) :: after) ->
  map_get k (before ++ (k, e) :: after) = Some e.
Proof.
  unfold unique_keys. rewrite map_app. cbn [map fst]. intros Hnd.
  apply NoDup_remove_2 in Hnd.
  assert (Hnot : ~ In k (map fst before))
    by (intros H; apply Hnd; apply in_or_app; now left).
  clear Hnd. induction before as [|[k0 e0] before IH]; cbn [app map_get].
  - now rewrite String.eqb_refl.
  - destruct (String.eqb_spec k0 k) as [-> | Hne].
    + exfalso. apply Hnot. now left.
    + apply IH. intros H. apply Hnot. now right.
Qed.

(** The cases of [cleanupIfNeeded], with the guards the deletion passed. *)
Lemma cleanup_deletes opts now st :
  cleanupIfNeeded opts now st = st
  \/
  (exists before k e after,
     st = before ++ (k, e) :: after /\
     cleanupIfNeeded opts now st = map_delete k st /\
     maxEndpoints opts <= map_size st /\
     k <> "" /\
     lastAccessedAt e < now).
Proof.
  unfold cleanupIfNeeded.
  destruct (map_size st >=? maxEndpoints opts) eqn:Hfull; [|now left].
  rewrite Z.geb_leb in Hfull. apply Z.leb_le in Hfull.
  unfold lru_scan.
  destruct (lru_scan_first_oldest st (None, now))
    as [[_ Heq] | (before & k & e & after & Hst & Hres & Hlow & _)].
  - rewrite Heq. now left.
  - rewrite Hres. cbn [fst truthy].
    destruct (String.eqb_spec k "") as [-> | Hk]; cbn [negb]; [now left|].
    right. exists before, k, e, after. auto.
Qed.

End CleanupProperties.

(** X1: [cleanupIfNeeded] removes at most one entry, and none while the
    store holds fewer than [maxEndpoints] entries. *)
Theorem cleanup_removes_at_most_one
    {num : Type} {NumOps : Number num}
    (opts : CounterOptions) (now : Z) (st : StatsMap num) :
  unique_keys st ->
  (List.length st <= S (List.length (cleanupIfNeeded opts now st)))%nat /\
  (map_size st < maxEndpoints opts -> cleanupIfNeeded opts now st = st).
Proof.
  intros Hu. split.
  - destruct (cleanup_deletes opts now st)
      as [-> | (before & k & e & after & Hst & -> & _)]; [lia|].
    rewrite Hst at 2. rewrite map_delete_middle by (rewrite <- Hst; exact Hu).
    rewrite Hst, !length_app. cbn [List.length]. lia.
  - intros Hroom.
    destruct (cleanup_deletes opts now st)
      as [-> | (before & k & e & after & _ & _ & Hfull & _)]; [reflexivity | lia].
Qed.

(** On the full store of ['/old'] and ['/newer'] one entry goes. *)
Lemma cleanup_removes_at_most_one_witness :
  (List.length old_and_newer
   <= S (List.length (cleanupIfNeeded (capacity 2) 11 old_and_newer)))%nat /\
  (map_size old_and_newer < maxEndpoints (capacity 2) ->
   cleanupIfNeeded (capacity 2) 11 old_and_newer = old_and_newer).
Proof.
  apply (cleanup_removes_at_most_one (capacity 2) 11 old_and_newer).
  apply run_unique. constructor.
Defined.

(** X2: [cleanupIfNeeded] never removes an entry that was last accessed at
    the time of the scan or later, and never the entry of the empty key. *)
Theorem cleanup_keeps_recent_and_empty_key
    {num : Type} {NumOps : Number num}
    (opts : CounterOptions) (now : Z) (st : StatsMap num)
    (k : string) (e : EndpointStats num) :
  unique_keys st ->
  map_get k st = Some e ->
  now <= lastAccessedAt e \/ k = "" ->
  map_get k (cleanupIfNeeded opts now st) = Some e.
Proof.
  intros Hu Hget Hkeep.
  destruct (cleanup_deletes opts now st)
    as [-> | (before & k' & e' & after & Hst & -> & _ & Hk' & Hold)];
    [exact Hget|].
  destruct (String.eqb_spec k k') as [-> | Hne].
  - exfalso. rewrite Hst in Hget.
    rewrite map_get_middle in Hget by (rewrite <- Hst; exact Hu).
    injection Hget as ->. destruct Hkeep; [lia | contradiction].
  - now rewrite map_get_delete_other.
Qed.

(** Scanned at time 6, the full store keeps ['/newer'], touched at 6. *)
Lemma cleanup_keeps_recent_and_empty_key_witness :
  map_get "/newer" (cleanupIfNeeded (capacity 2) 6 old_and_newer)
  = Some (update_stats 6 ms100 (fresh_stats 6 "GET" "/newer")).
Proof.
  apply (cleanup_keeps_recent_and_empty_key (capacity 2) 6 old_and_newer
           "/newer" (update_stats 6 ms100 (fresh_stats 6 "GET" "/newer"))).
  - apply run_unique. constructor.
  - reflexivity.
  - left. vm_compute. discriminate.
Defined.

(** The conditions of X3 on the three calls of the Jest test, one
    millisecond apart. *)
Lemma size_bounded_when_clock_advances_witness :
  Forall (fun st' => map_size st' <= maxEndpoints (capacity 2))
    (states (capacity 2) (jest_three_endpoints 1 2 3) []).
Proof.
  apply (size_bounded_when_clock_advances (capacity 2)
           (jest_three_endpoints 1 2 3) 0 []).
  - vm_compute. discriminate.
  - vm_compute. discriminate.
  - constructor.
  - cbn. repeat split; try lia; discriminate.
Defined.

(** X4: when the store is full, no key is empty and every entry was last
    accessed before the scan, [cleanupIfNeeded] removes exactly one entry:
    the first, in iteration order, of those with the smallest
    [lastAccessedAt]. *)
Theorem cleanup_evicts_first_oldest
    {num : Type} {NumOps : Number num}
    (opts : CounterOptions) (now latest : Z) (st : StatsMap num) :
  unique_keys st ->
  st <> [] ->
  maxEndpoints opts <= map_size st ->
  touched_by latest st ->
  latest < now ->
  exists before k e after,
    st = before ++ (k, e) :: after /\
    Forall (fun kv => lastAccessedAt e < lastAccessedAt (snd kv)) before /\
    Forall (fun kv => lastAccessedAt e <= lastAccessedAt (snd kv)) after /\
    cleanupIfNeeded opts now st = before ++ after.
Proof.
  intros Hu Hne Hfull Hst Hnow. unfold cleanupIfNeeded, lru_scan.
  apply Z.leb_le in Hfull. rewrite <- Z.geb_leb in Hfull. rewrite Hfull.
  destruct (lru_scan_first_oldest st (None, now))
    as [[Hall _] | (before & k & e & after & Heq & Hres & _ & Hb & Ha)].
  - destruct st as [|kv st]; [congruence|].
    inversion Hall; subst. inversion Hst; subst. cbn [snd] in *. lia.
  - rewrite Hres. cbn [fst truthy].
    assert (Hin : In (k, e) st) by (rewrite Heq; apply in_elt).
    unfold touched_by in Hst. rewrite Forall_forall in Hst.
    destruct (Hst _ Hin) as [Hk _]. cbn [fst] in Hk.
    apply String.eqb_neq in Hk. rewrite Hk. cbn [negb].
    exists before, k, e, after. repeat split; auto.
    rewrite Heq at 1. apply map_delete_middle. rewrite <- Heq. exact Hu.
Qed.

(** Scanned at time 11, the full store of ['/old'] and ['/newer'] loses
    ['/old']. *)
Lemma cleanup_evicts_first_oldest_witness :
  exists before k e after,
    old_and_newer = before ++ (k, e) :: after /\
    Forall (fun kv => lastAccessedAt e < lastAccessedAt (snd kv)) before /\
    Forall (fun kv => lastAccessedAt e <= lastAccessedAt (snd kv)) after /\
    cleanupIfNeeded (capacity 2) 11 old_and_newer = before ++ after.
Proof.
  apply (cleanup_evicts_first_oldest (capacity 2) 11 6 old_and_newer).
  - apply run_unique. constructor.
  - discriminate.
  - vm_compute. discriminate.
  - repeat constructor; cbn; try discriminate.
  - lia.
Defined.

(** ** [incrementCount] *)

Section RecordProperties.
Context {num : Type} {NumOps : Number num}.
Implicit Types (st : StatsMap num) (k : string) (opts : CounterOptions).

Lemma map_set_present_keys {V : Type} (m : JsMap V) k (v v0 : V) :
  map_get k m = Some v0 -> map fst (map_set k v m) = map fst m.
Proof.
  induction m as [|[k' v'] m IH]; cbn [map_get map_set]; [discriminate|].
  destruct (String.eqb_spec k' k) as [-> | Hne]; [reflexivity|].
  intros H. cbn [map fst]. now rewrite IH.
Qed.

Lemma cleanup_absent opts now st k :
  map_get k st = None -> map_get k (cleanupIfNeeded opts now st) = None.
Proof.
  intros Habs. destruct (cleanup_get opts now st k) as [E | E]; congruence.
Qed.

(** A property of single entries that every update keeps holds for every
    entry of every store a sequence of calls goes through. *)
Lemma states_entries_invariant
    (P : string * EndpointStats num -> Prop) opts :
  (forall now created meth pathname d,
     P (pathname, update_stats now d (fresh_stats created meth pathname))) ->
  (forall now d k e, P (k, e) -> P (k, update_stats now d e)) ->
  forall (calls : list (Call num)) st,
    Forall P st -> Forall (fun st' => Forall P st') (states opts calls st).
Proof.
  intros Hfresh Hupdate.
  induction calls as [|c calls IH]; intros st Hst; cbn [states];
    [constructor|].
  assert (Hnext : Forall P (snd (do_call opts c st))).
  { unfold do_call, incrementCount. cbn [snd].
    pose proof (cleanup_Forall P opts (scan_time (call_clock c)) st Hst) as Hst1.
    apply map_set_Forall; [|exact Hst1].
    destruct (map_get (call_path c) _) as [e|] eqn:E.
    - apply Hupdate. apply map_get_In in E.
      rewrite Forall_forall in Hst1. exact (Hst1 _ E).
    - apply Hfresh. }
  constructor; [exact Hnext | now apply IH].
Qed.

(** While the entry of [k] is never evicted, it keeps its method and path
    and counts the calls for [k]. *)
Lemma run_counts_present opts k (calls : list (Call num)) :
  forall st e0,
    map_get k st = Some e0 ->
    never_evicted k opts calls st = true ->
    exists e,
      map_get k (run opts calls st) = Some e /\
      count e = count e0 + Z.of_nat (calls_for k calls) /\
      method e = method e0 /\
      path e = path e0.
Proof.
  unfold run, calls_for.
  induction calls as [|c calls IH]; intros st e0 Hget Hkept.
  - exists e0. cbn. repeat split; [exact Hget | lia].
  - cbn [never_evicted] in Hkept. apply andb_true_iff in Hkept.
    destruct Hkept as [Hhere Hrest].
    assert (Hget1 : map_get k
                      (cleanupIfNeeded opts (scan_time (call_clock c)) st)
                    = Some e0).
    { unfold map_has in Hhere. rewrite Hget in Hhere. cbn [implb] in Hhere.
      destruct (cleanup_get opts (scan_time (call_clock c)) st k) as [E | E];
        rewrite E in *; [exact Hget | discriminate]. }
    cbn [fold_left filter]. unfold do_call in *.
    set (st' := snd (incrementCount opts (call_clock c) (call_method c)
                       (call_path c) (call_duration c) st)) in *.
    destruct (String.eqb_spec (call_path c) k) as [Hk | Hk].
    + destruct (IH st' (update_stats (update_time (call_clock c))
                          (call_duration c) e0))
        as (e & He & Hc & Hm & Hp); [|exact Hrest|].
      { subst st' k. rewrite incrementCount_get_same. unfold prior_stats.
        now rewrite Hget1. }
      exists e. cbn [List.length]. cbn [update_stats count method path] in *.
      repeat split; [exact He | lia | exact Hm | exact Hp].
    + destruct (IH st' e0) as (e & He & Hc & Hm & Hp); [|exact Hrest|].
      { subst st'. rewrite incrementCount_get_other by congruence.
        exact Hget1. }
      exists e. repeat split; assumption.
Qed.

End RecordProperties.

(** X5: a call of [incrementCount] touches no entry but the one of its key:
    every other key keeps its entry unchanged or loses it to the clean-up,
    and the store grows by at most one entry. *)
Theorem incrementCount_frame
    {num : Type} {NumOps : Number num}
    (opts : CounterOptions) (clk : Clock) (meth pathname : string)
    (duration : num) (st : StatsMap num) :
  (forall k, k <> pathname ->
     map_get k (snd (incrementCount opts clk meth pathname duration st))
     = map_get k st
     \/
     map_get k (snd (incrementCount opts clk meth pathname duration st))
     = None) /\
  (List.length (snd (incrementCount opts clk meth pathname duration st))
   <= S (List.length st))%nat.
Proof.
  split.
  - intros k Hne. rewrite incrementCount_get_other by exact Hne.
    apply cleanup_get.
  - unfold incrementCount. cbn [snd].
    pose proof (cleanup_length opts (scan_time clk) st).
    pose proof (map_set_length (cleanupIfNeeded opts (scan_time clk) st)
                  pathname
                  (update_stats (update_time clk) duration
                     match map_get pathname
                             (cleanupIfNeeded opts (scan_time clk) st) with
                     | Some s => s
                     | None => fresh_stats (create_time clk) meth pathname
                     end)).
    lia.
Qed.

(** X6: while the store holds fewer than [maxEndpoints] entries,
    [incrementCount] removes nothing: every other entry stays as it is, a
    new key is appended at the end of the iteration order, and an existing
    key keeps its position. *)
Theorem incrementCount_below_capacity
    {num : Type} {NumOps : Number num}
    (opts : CounterOptions) (clk : Clock) (meth pathname : string)
    (duration : num) (st : StatsMap num) :
  map_size st < maxEndpoints opts ->
  (forall k, k <> pathname ->
     map_get k (snd (incrementCount opts clk meth pathname duration st))
     = map_get k st) /\
  (map_has pathname st = false ->
   snd (incrementCount opts clk meth pathname duration st)
   = st ++ [(pathname, update_stats (update_time clk) duration
                         (fresh_stats (create_time clk) meth pathname))]) /\
  (map_has pathname st = true ->
   map fst (snd (incrementCount opts clk meth pathname duration st))
   = map fst st).
Proof.
  intros Hroom.
  assert (Hsame : cleanupIfNeeded opts (scan_time clk) st = st).
  { destruct (cleanup_deletes opts (scan_time clk) st)
      as [-> | (before & k & e & after & _ & _ & Hfull & _)];
      [reflexivity | lia]. }
  split; [|split].
  - intros k Hne. rewrite incrementCount_get_other by exact Hne.
    now rewrite Hsame.
  - unfold map_has. intros Habs. unfold incrementCount. cbn [snd].
    rewrite Hsame. destruct (map_get pathname st) eqn:E; [discriminate|].
    now apply map_set_absent.
  - unfold map_has. intros Hin. unfold incrementCount. cbn [snd].
    rewrite Hsame. destruct (map_get pathname st) as [e|] eqn:E;
      [|discriminate].
    eapply map_set_present_keys. exact E.
Qed.

(** With room for 1000 entries, a second call for ['/old'] keeps both
    entries in place. *)
Lemma incrementCount_below_capacity_witness :
  (forall k, k <> "/old" ->
     map_get k (snd (incrementCount default_options (clock_at 11) "POST"
                       "/old" ms100 old_and_newer))
     = map_get k old_and_newer) /\
  (map_has "/old" old_and_newer = false ->
   snd (incrementCount default_options (clock_at 11) "POST" "/old" ms100
          old_and_newer)
   = old_and_newer
     ++ [("/old", update_stats 11 ms100 (fresh_stats 11 "POST" "/old"))]) /\
  (map_has "/old" old_and_newer = true ->
   map fst (snd (incrementCount default_options (clock_at 11) "POST" "/old"
                   ms100 old_and_newer))
   = map fst old_and_newer).
Proof.
  apply (incrementCount_below_capacity default_options (clock_at 11) "POST"
           "/old" ms100 old_and_newer).
  vm_compute. reflexivity.
Defined.

(** X7: in every store a sequence of calls on a new counter goes through,
    every entry is filed under its own [path] and has a [count] of at
    least 1. *)
Theorem entries_filed_and_counted
    {num : Type} {NumOps : Number num}
    (opts : CounterOptions) (calls : list (Call num)) :
  Forall (fun st => Forall filed_and_counted st) (states opts calls []).
Proof.
  apply states_entries_invariant; [| |constructor]; unfold filed_and_counted.
  - intros. cbn. split; [reflexivity | lia].
  - intros now d k e [Hp Hc]. cbn in *. split; [exact Hp | lia].
Qed.

(** X8: after a sequence of calls during which the entry of [k] is never
    evicted, starting from a store without [k], the entry of [k] counts the
    calls for [k] and carries the method of the first of them, whatever
    methods the later calls had. *)
Theorem run_counts_and_keeps_first_method
    {num : Type} {NumOps : Number num}
    (opts : CounterOptions) (k meth : string) (calls : list (Call num))
    (st : StatsMap num) :
  map_get k st = None ->
  never_evicted k opts calls st = true ->
  first_method_for k calls = Some meth ->
  exists e,
    map_get k (run opts calls st) = Some e /\
    count e = Z.of_nat (calls_for k calls) /\
    method e = meth /\
    path e = k.
Proof.
  revert st. induction calls as [|c calls IH]; intros st Habs Hkept Hfirst;
    [discriminate|].
  cbn [never_evicted] in Hkept. apply andb_true_iff in Hkept.
  destruct Hkept as [_ Hrest].
  cbn [first_method_for] in Hfirst.
  assert (Hstep : run opts (c :: calls) st
                  = run opts calls (snd (do_call opts c st))) by reflexivity.
  rewrite Hstep. unfold calls_for. cbn [filter].
  pose proof (cleanup_absent opts (scan_time (call_clock c)) st k Habs) as Habs1.
  unfold do_call in *.
  set (st' := snd (incrementCount opts (call_clock c) (call_method c)
                     (call_path c) (call_duration c) st)) in *.
  destruct (String.eqb_spec (call_path c) k) as [Hk | Hk].
  - injection Hfirst as <-.
    destruct (run_counts_present opts k calls st'
                (update_stats (update_time (call_clock c)) (call_duration c)
                   (fresh_stats (create_time (call_clock c)) (call_method c)
                      (call_path c))))
      as (e & He & Hc & Hm & Hp); [|exact Hrest|].
    { subst st' k. rewrite incrementCount_get_same. unfold prior_stats.
      now rewrite Habs1. }
    exists e. cbn [List.length]. unfold calls_for in Hc.
    cbn [update_stats fresh_stats count method path] in *.
    repeat split; [exact He | lia | exact Hm | congruence].
  - apply IH; [|exact Hrest | exact Hfirst].
    subst st'. rewrite incrementCount_get_other by congruence. exact Habs1.
Qed.

(** The Jest test "should track method information in stats": GET, then
    POST on the same path. *)
Lemma run_counts_and_keeps_first_method_witness :
  exists e,
    map_get "/users"
      (run default_options
         [get_call "/users" ms100 1;
          {| call_method := "POST"; call_path := "/users";
             call_duration := ms100; call_clock := clock_at 2 |}] [])
    = Some e /\
    count e = Z.of_nat 2 /\
    method e = "GET" /\
    path e = "/users".
Proof.
  apply (run_counts_and_keeps_first_method default_options "/users" "GET"
           [get_call "/users" ms100 1;
            {| call_method := "POST"; call_path := "/users";
               call_duration := ms100; call_clock := clock_at 2 |}] []);
    reflexivity.
Defined.

(** X10: the first observation of a key, with a rational duration [d] and
    exact number operations: the new entry has count 1, total, average and
    minimum [d], and maximum [d] when [d] is not negative; for a negative
    [d] the maximum is 0, the value the fresh entry starts with. *)
Theorem first_observation_exact
    (opts : CounterOptions) (clk : Clock) (meth pathname : string) (d : Q)
    (st : StatsMap Exact.xnum) :
  map_has pathname st = false ->
  exists e t a,
    map_get pathname
      (snd (incrementCount opts clk meth pathname (Exact.Fin d) st)) = Some e /\
    fst (incrementCount opts clk meth pathname (Exact.Fin d) st) = 1 /\
    count e = 1 /\
    method e = meth /\
    path e = pathname /\
    lastAccessedAt e = update_time clk /\
    totalDuration e = Exact.Fin t /\ (t == d)%Q /\
    averageDuration e = Exact.Fin a /\ (a == d)%Q /\
    minDuration e = Exact.Fin d /\
    maxDuration e = (if Qle_bool 0 d then Exact.Fin d else Exact.Fin 0).
Proof.
  unfold map_has. intros Habs.
  assert (Hnone : map_get pathname
                    (cleanupIfNeeded opts (scan_time clk) st) = None).
  { apply cleanup_absent. destruct (map_get pathname st); congruence. }
  exists (update_stats (update_time clk) (Exact.Fin d)
            (fresh_stats (create_time clk) meth pathname)),
         (0 + d)%Q, ((0 + d) / inject_Z 1)%Q.
  split.
  { rewrite incrementCount_get_same. unfold prior_stats. now rewrite Hnone. }
  split.
  { rewrite incrementCount_returns. unfold count_of. now rewrite Hnone. }
  cbn. repeat split; try reflexivity; try lra.
  unfold inject_Z. field.
Qed.

(** A first observation of -5 ms leaves [maxDuration] at 0. *)
Lemma first_observation_exact_witness :
  exists e t a,
    map_get "/a"
      (snd (incrementCount default_options (clock_at 1) "GET" "/a"
              (Exact.Fin (-5 # 1)) [])) = Some e /\
    fst (incrementCount default_options (clock_at 1) "GET" "/a"
           (Exact.Fin (-5 # 1)) []) = 1 /\
    count e = 1 /\
    method e = "GET" /\
    path e = "/a" /\
    lastAccessedAt e = update_time (clock_at 1) /\
    totalDuration e = Exact.Fin t /\ (t == -5 # 1)%Q /\
    averageDuration e = Exact.Fin a /\ (a == -5 # 1)%Q /\
    minDuration e = Exact.Fin (-5 # 1) /\
    maxDuration e
    = (if Qle_bool 0 (-5 # 1) then Exact.Fin (-5 # 1) else Exact.Fin 0).
Proof.
  apply (first_observation_exact default_options (clock_at 1) "GET" "/a"
           (-5 # 1) []).
  reflexivity.
Defined.

(** ** [getStats] and [reset] *)

(** X11: for a non-empty key, [getStats(key)] right after
    [incrementCount(method, key, duration)] returns the entry of the key,
    and its count is the value the call returned; the lookup of any other
    non-empty key returns what it returned before the call, or [undefined]
    when the call evicted that key. *)
Theorem getStats_after_incrementCount
    {num : Type} {NumOps : Number num}
    (opts : CounterOptions) (clk : Clock) (meth pathname : string)
    (duration : num) (st : StatsMap num) :
  pathname <> "" ->
  (exists e,
     getStats (Some pathname)
       (snd (incrementCount opts clk meth pathname duration st))
     = OneEndpoint (Some e) /\
     count e = fst (incrementCount opts clk meth pathname duration st)) /\
  (forall k, k <> "" -> k <> pathname ->
     getStats (Some k)
       (snd (incrementCount opts clk meth pathname duration st))
     = getStats (Some k) st
     \/
     getStats (Some k)
       (snd (incrementCount opts clk meth pathname duration st))
     = OneEndpoint None).
Proof.
  intros Hkey. split.
  - eexists. unfold getStats, truthy.
    apply String.eqb_neq in Hkey. rewrite Hkey. cbn [negb].
    rewrite incrementCount_get_same. split; reflexivity.
  - intros k Hk Hne. unfold getStats, truthy.
    apply String.eqb_neq in Hk. rewrite Hk. cbn [negb].
    rewrite incrementCount_get_other by exact Hne.
    destruct (cleanup_get opts (scan_time clk) st k) as [-> | ->]; auto.
Qed.

(** The lookup of ['/old'] after its second call. *)
Lemma getStats_after_incrementCount_witness :
  (exists e,
     getStats (Some "/old")
       (snd (incrementCount default_options (clock_at 11) "GET" "/old" ms100
               old_and_newer))
     = OneEndpoint (Some e) /\
     count e = fst (incrementCount default_options (clock_at 11) "GET" "/old"
                      ms100 old_and_newer)) /\
  (forall k, k <> "" -> k <> "/old" ->
     getStats (Some k)
       (snd (incrementCount default_options (clock_at 11) "GET" "/old" ms100
               old_and_newer))
     = getStats (Some k) old_and_newer
     \/
     getStats (Some k)
       (snd (incrementCount default_options (clock_at 11) "GET" "/old" ms100
               old_and_newer))
     = OneEndpoint None).
Proof.
  apply (getStats_after_incrementCount default_options (clock_at 11) "GET"
           "/old" ms100 old_and_newer).
  discriminate.
Defined.

(** X12: after [reset(key)] with a non-empty key, and after [reset()],
    [getStats(key)] returns [undefined]; [reset(key)] leaves the lookup of
    every other non-empty key as it was, and [getStats()] after [reset()]
    returns an empty mapping. *)
Theorem getStats_after_reset
    {num : Type} {NumOps : Number num} (k : string) (st : StatsMap num) :
  k <> "" ->
  getStats (Some k) (reset (Some k) st) = OneEndpoint None /\
  getStats (Some k) (reset None st) = OneEndpoint None /\
  (forall k', k' <> "" -> k' <> k ->
     getStats (Some k') (reset (Some k) st) = getStats (Some k') st) /\
  getStats None (reset None st) = AllEndpoints [].
Proof.
  intros Hk. apply String.eqb_neq in Hk.
  unfold getStats, reset, truthy. rewrite Hk. cbn [negb].
  split; [now rewrite map_get_delete_same|].
  split; [reflexivity|].
  split; [|reflexivity].
  intros k' Hk' Hne. apply String.eqb_neq in Hk'. rewrite Hk'. cbn [negb].
  now rewrite map_get_delete_other.
Qed.

(** The Jest test "should reset specific endpoint", on ['/old']. *)
Lemma getStats_after_reset_witness :
  getStats (Some "/old") (reset (Some "/old") old_and_newer)
  = OneEndpoint None /\
  getStats (Some "/old") (reset None old_and_newer) = OneEndpoint None /\
  (forall k', k' <> "" -> k' <> "/old" ->
     getStats (Some k') (reset (Some "/old") old_and_newer)
     = getStats (Some k') old_and_newer) /\
  getStats None (reset None old_and_newer) = AllEndpoints [].
Proof.
  apply (getStats_after_reset "/old" old_and_newer). discriminate.
Defined.

(** X13: while the store holds fewer than [maxEndpoints] entries, recording
    a new non-empty key and resetting that key gives the store back, entry
    for entry and in the same order. *)
Theorem reset_undoes_first_record
    {num : Type} {NumOps : Number num}
    (opts : CounterOptions) (clk : Clock) (meth pathname : string)
    (duration : num) (st : StatsMap num) :
  pathname <> "" ->
  map_has pathname st = false ->
  map_size st < maxEndpoints opts ->
  reset (Some pathname)
    (snd (incrementCount opts clk meth pathname duration st)) = st.
Proof.
  intros Hkey Habs Hroom.
  assert (Hsame : cleanupIfNeeded opts (scan_time clk) st = st).
  { destruct (cleanup_deletes opts (scan_time clk) st)
      as [-> | (before & k & e & after & _ & _ & Hfull & _)];
      [reflexivity | lia]. }
  assert (Hnone : map_get pathname st = None).
  { unfold map_has in Habs. destruct (map_get pathname st); congruence. }
  unfold reset, truthy. apply String.eqb_neq in Hkey. rewrite Hkey.
  cbn [negb]. unfold incrementCount. cbn [snd]. rewrite Hsame, Hnone.
  rewrite (map_set_absent _ _ _ Hnone).
  unfold map_delete. rewrite filter_app. cbn [filter fst].
  rewrite String.eqb_refl. cbn [negb]. rewrite app_nil_r.
  apply (map_delete_absent st pathname).
  now apply map_get_None_not_In.
Qed.

(** Recording ['/newest'] with room for it and resetting it. *)
Lemma reset_undoes_first_record_witness :
  reset (Some "/newest")
    (snd (incrementCount default_options (clock_at 11) "GET" "/newest" ms100
            old_and_newer))
  = old_and_newer.
Proof.
  apply (reset_undoes_first_record default_options (clock_at 11) "GET"
           "/newest" ms100 old_and_newer).
  - discriminate.
  - reflexivity.
  - vm_compute. reflexivity.
Defined.

(** ** The ranked queries *)

Section RankingProperties.
Context {A : Type} (cmp : A -> A -> comparison) (R : A -> A -> Prop).
Hypothesis R_refl : forall x, R x x.
Hypothesis R_trans : forall x y z, R x y -> R y z -> R x z.
Hypothesis cmp_Gt : forall x y, cmp x y = Gt -> R y x.
Hypothesis cmp_not_Gt : forall x y, cmp x y <> Gt -> R x y.

Lemma sort_insert_sorted x l :
  StronglySorted R l -> StronglySorted R (sort_insert cmp x l).
Proof.
  induction 1 as [|y l Hsorted IH Hall]; cbn [sort_insert].
  - constructor; constructor.
  - destruct (cmp x y) eqn:E.
    + assert (Hxy : R x y) by (apply cmp_not_Gt; congruence).
      constructor; [now constructor|].
      constructor; [exact Hxy|].
      eapply Forall_impl; [|exact Hall]. intros z. now apply R_trans.
    + assert (Hxy : R x y) by (apply cmp_not_Gt; congruence).
      constructor; [now constructor|].
      constructor; [exact Hxy|].
      eapply Forall_impl; [|exact Hall]. intros z. now apply R_trans.
    + constructor; [exact IH|].
      eapply Permutation_Forall; [symmetry; apply sort_insert_perm|].
      constructor; [now apply cmp_Gt | exact Hall].
Qed.

Lemma array_sort_sorted l : StronglySorted R (array_sort cmp l).
Proof.
  induction l as [|x l IH]; cbn [array_sort fold_right]; [constructor|].
  now apply sort_insert_sorted.
Qed.

(** The first element of the sorted array stands before every element of
    the input in the order. *)
Lemma array_sort_head x rest l :
  array_sort cmp l = x :: rest -> Forall (R x) l.
Proof.
  intros Hsorted.
  pose proof (array_sort_sorted l) as Hs. rewrite Hsorted in Hs.
  apply StronglySorted_inv in Hs. destruct Hs as [_ Hall].
  apply (Permutation_Forall (array_sort_perm cmp l)). rewrite Hsorted.
  constructor; [apply R_refl | exact Hall].
Qed.

End RankingProperties.

Section SliceProperties.
Context {A : Type}.

Lemma slice0_firstn (n : Z) (l : list A) :
  exists k, slice0 n l = firstn k l /\
            k = slice0_length n (Z.of_nat (List.length l)) /\
            (k <= List.length l)%nat.
Proof.
  unfold slice0, slice0_length. eexists. split; [reflexivity|].
  split; [reflexivity|].
  destruct (n <? 0) eqn:E; [apply Z.ltb_lt in E | apply Z.ltb_ge in E]; lia.
Qed.

Lemma slice0_has_length (n : Z) (l : list A) :
  List.length (slice0 n l) = slice0_length n (Z.of_nat (List.length l)).
Proof.
  destruct (slice0_firstn n l) as (k & -> & <- & Hk).
  rewrite length_firstn. lia.
Qed.

Lemma slice0_In (n : Z) (l : list A) x : In x (slice0 n l) -> In x l.
Proof.
  unfold slice0. intros Hin.
  rewrite <- (firstn_skipn (Z.to_nat
     (if n <? 0 then Z.max (Z.of_nat (List.length l) + n) 0
      else Z.min n (Z.of_nat (List.length l)))) l).
  apply in_or_app. now left.
Qed.

Lemma firstn_NoDup (k : nat) (l : list A) : NoDup l -> NoDup (firstn k l).
Proof.
  intros Hnd. rewrite <- (firstn_skipn k l) in Hnd.
  now apply NoDup_app_remove_r in Hnd.
Qed.

End SliceProperties.

Section RankedProperties.
Context {num : Type} {NumOps : Number num}.
Implicit Types (st : StatsMap num).

Lemma ranked_length (cmp : _ -> _ -> comparison) limit st :
  List.length (map to_ranked (slice0 limit (array_sort cmp st)))
  = slice0_length limit (map_size st).
Proof.
  rewrite length_map, slice0_has_length.
  now rewrite (Permutation_length (array_sort_perm cmp st)).
Qed.

Lemma ranked_In (cmp : _ -> _ -> comparison) limit st (r : Ranked num) :
  In r (map to_ranked (slice0 limit (array_sort cmp st))) ->
  In (endpoint r, stats r) st.
Proof.
  intros Hin. apply in_map_iff in Hin. destruct Hin as ([k e] & <- & Hin).
  apply slice0_In in Hin. cbn.
  eapply Permutation_in; [apply array_sort_perm | exact Hin].
Qed.

Lemma ranked_NoDup (cmp : _ -> _ -> comparison) limit st :
  unique_keys st ->
  NoDup (map (@endpoint num) (map to_ranked (slice0 limit (array_sort cmp st)))).
Proof.
  intros Hu. rewrite map_map. cbn [to_ranked endpoint].
  change (fun x : string * EndpointStats num => fst x)
    with (@fst string (EndpointStats num)).
  destruct (slice0_firstn limit (array_sort cmp st)) as (k & -> & _).
  rewrite <- firstn_map. apply firstn_NoDup.
  eapply Permutation_NoDup; [|exact Hu].
  apply Permutation_map. symmetry. apply array_sort_perm.
Qed.

Lemma first_of_ranked (cmp : _ -> _ -> comparison) st :
  first_elem (map to_ranked (slice0 1 (array_sort cmp st)))
  = option_map to_ranked (hd_error (array_sort cmp st)).
Proof.
  rewrite slice0_nonneg by lia.
  destruct (array_sort cmp st); reflexivity.
Qed.

Lemma array_sort_nonempty (cmp : _ -> _ -> comparison) st :
  st <> [] -> exists x rest, array_sort cmp st = x :: rest.
Proof.
  intros Hne. destruct (array_sort cmp st) as [|x rest] eqn:E; [|eauto].
  pose proof (Permutation_length (array_sort_perm cmp st)) as Hlen.
  rewrite E in Hlen. destruct st; [congruence | discriminate].
Qed.

End RankedProperties.

(** X14: for every integer limit, [getTopEndpoints(limit)] and
    [getSlowestEndpoints(limit)] return [min(limit, size)] elements when the
    limit is not negative and [max(size + limit, 0)] elements when it is
    negative: a negative limit drops that many entries from the end of the
    ranking. *)
Theorem ranked_queries_length
    {num : Type} {NumOps : Number num} (limit : Z) (st : StatsMap num) :
  List.length (getTopEndpoints limit st) = slice0_length limit (map_size st) /\
  List.length (getSlowestEndpoints limit st)
  = slice0_length limit (map_size st).
Proof. split; apply ranked_length. Qed.

(** X15: every element the ranked queries return pairs a key of the store
    with the entry stored under it, and no key is returned twice. *)
Theorem ranked_queries_return_entries
    {num : Type} {NumOps : Number num} (limit : Z) (st : StatsMap num) :
  unique_keys st ->
  (forall r, In r (getTopEndpoints limit st) ->
     map_get (endpoint r) st = Some (stats r)) /\
  NoDup (map (@endpoint num) (getTopEndpoints limit st)) /\
  (forall r, In r (getSlowestEndpoints limit st) ->
     map_get (endpoint r) st = Some (stats r)) /\
  NoDup (map (@endpoint num) (getSlowestEndpoints limit st)).
Proof.
  intros Hu.
  assert (Hget : forall k e, In (k, e) st -> map_get k st = Some e).
  { intros k e Hin. apply in_split in Hin. destruct Hin as (l1 & l2 & Hst).
    rewrite Hst. apply map_get_middle. rewrite <- Hst. exact Hu. }
  repeat split.
  - intros r Hin. apply Hget. eapply ranked_In. exact Hin.
  - now apply ranked_NoDup.
  - intros r Hin. apply Hget. eapply ranked_In. exact Hin.
  - now apply ranked_NoDup.
Qed.

(** The two most accessed of ['/popular'], ['/medium'] and ['/rare']. *)
Lemma ranked_queries_return_entries_witness :
  (forall r, In r (getTopEndpoints 2 popular_medium_rare) ->
     map_get (endpoint r) popular_medium_rare = Some (stats r)) /\
  NoDup (map (@endpoint float) (getTopEndpoints 2 popular_medium_rare)) /\
  (forall r, In r (getSlowestEndpoints 2 popular_medium_rare) ->
     map_get (endpoint r) popular_medium_rare = Some (stats r)) /\
  NoDup (map (@endpoint float) (getSlowestEndpoints 2 popular_medium_rare)).
Proof.
  apply (ranked_queries_return_entries 2 popular_medium_rare).
  apply run_unique. constructor.
Defined.

Section CountOrder.
Context {num : Type} {NumOps : Number num}.

Lemma count_desc_refl (x : string * EndpointStats num) : count_desc x x.
Proof. unfold count_desc. lia. Qed.

Lemma count_desc_trans (x y z : string * EndpointStats num) :
  count_desc x y -> count_desc y z -> count_desc x z.
Proof. unfold count_desc. lia. Qed.

Lemma by_count_desc_passes (x y : string * EndpointStats num) :
  by_count_desc x y = Gt -> count_desc y x.
Proof. intros H. apply by_count_desc_Gt in H. unfold count_desc. lia. Qed.

Lemma by_count_desc_stays (x y : string * EndpointStats num) :
  by_count_desc x y <> Gt -> count_desc x y.
Proof.
  intros H. unfold count_desc.
  destruct (Z_lt_le_dec (count (snd x)) (count (snd y))) as [Hlt | Hle];
    [|exact Hle].
  apply by_count_desc_Gt in Hlt. contradiction.
Qed.

End CountOrder.

(** X16: [getSummary().topEndpoint] is [undefined] on the empty store and
    only there; otherwise it is an entry of the store whose count no other
    entry exceeds, and among the entries with that count the first in the
    store's iteration order. *)
Theorem topEndpoint_is_first_most_accessed
    {num : Type} {NumOps : Number num} (st : StatsMap num) :
  (topEndpoint (getSummary st) = None <-> st = []) /\
  (forall r, topEndpoint (getSummary st) = Some r ->
     In (endpoint r, stats r) st /\
     Forall (fun kv => count (snd kv) <= count (stats r)) st /\
     hd_error (filter (with_count (count (stats r))) st)
     = Some (endpoint r, stats r)).
Proof.
  unfold getSummary. cbn [topEndpoint]. unfold getTopEndpoints.
  rewrite first_of_ranked.
  destruct st as [|kv0 st0].
  { split; [split; reflexivity | discriminate]. }
  destruct (array_sort_nonempty by_count_desc (kv0 :: st0)) as (x & rest & Hs);
    [discriminate|].
  rewrite Hs. cbn [hd_error option_map]. split; [split; discriminate|].
  intros r [= <-]. destruct x as [k e]. cbn [to_ranked endpoint stats fst snd].
  split; [|split].
  - eapply Permutation_in; [apply (array_sort_perm by_count_desc)|].
    rewrite Hs. now left.
  - pose proof (array_sort_head by_count_desc count_desc count_desc_refl
                  count_desc_trans by_count_desc_passes by_count_desc_stays
                  _ _ _ Hs) as Hall.
    eapply Forall_impl; [|exact Hall]. unfold count_desc. cbn [snd]. auto.
  - rewrite <- (array_sort_stable by_count_desc (with_count (count e))).
    + rewrite Hs. cbn [filter]. unfold with_count at 1. cbn [snd].
      now rewrite Z.eqb_refl.
    + intros a b Hgt Ha. apply by_count_desc_Gt in Hgt.
      unfold with_count in *. apply Z.eqb_eq in Ha. apply Z.eqb_neq. lia.
Qed.

(** ** [getSummary] *)

Section SummaryProperties.
Context {num : Type} {NumOps : Number num}.
Implicit Types (st : StatsMap num) (opts : CounterOptions).

Lemma totalRequests_total_count st :
  totalRequests (getSummary st) = total_count st.
Proof.
  unfold getSummary, total_count. cbn [totalRequests].
  rewrite fold_left_count_sum, map_map. reflexivity.
Qed.

Lemma total_count_set (m : StatsMap num) k (v : EndpointStats num) :
  total_count (map_set k v m) = total_count m - count_of k m + count v.
Proof.
  unfold total_count, count_of.
  induction m as [|[k' v'] m IH]; cbn [map_set map_get map fold_right snd].
  - lia.
  - destruct (String.eqb k' k); cbn [map fold_right snd]; [lia|].
    rewrite IH. lia.
Qed.

Lemma total_count_delete (m : StatsMap num) k :
  Forall (fun kv => 1 <= count (snd kv)) m ->
  total_count (map_delete k m) <= total_count m.
Proof.
  unfold total_count, map_delete.
  induction 1 as [|[k' v'] m Hx Hm IH]; cbn [filter map fold_right fst snd];
    [lia|].
  cbn [snd] in Hx.
  destruct (negb (String.eqb k' k)); cbn [map fold_right snd]; lia.
Qed.

Lemma total_count_size (m : StatsMap num) :
  Forall (fun kv => 1 <= count (snd kv)) m -> map_size m <= total_count m.
Proof.
  unfold total_count, map_size.
  induction 1 as [|[k' v'] m Hx Hm IH]; cbn [List.length map fold_right snd];
    [lia|].
  cbn [snd] in Hx. lia.
Qed.

Lemma incrementCount_total_count opts clk meth pathname duration st :
  total_count (snd (incrementCount opts clk meth pathname duration st))
  = total_count (cleanupIfNeeded opts (scan_time clk) st) + 1.
Proof.
  unfold incrementCount. cbn [snd]. rewrite total_count_set.
  unfold count_of.
  destruct (map_get pathname _); cbn [update_stats fresh_stats count]; lia.
Qed.

Lemma incrementCount_counted opts clk meth pathname duration st :
  Forall (fun kv => 1 <= count (snd kv)) st ->
  Forall (fun kv => 1 <= count (snd kv))
    (snd (incrementCount opts clk meth pathname duration st)).
Proof.
  intros Hst. unfold incrementCount. cbn [snd].
  pose proof (cleanup_Forall _ opts (scan_time clk) st Hst) as Hst1.
  apply map_set_Forall; [|exact Hst1]. cbn [snd].
  destruct (map_get pathname _) as [e|] eqn:E;
    cbn [update_stats fresh_stats count]; [|lia].
  apply map_get_In in E. rewrite Forall_forall in Hst1.
  specialize (Hst1 _ E). cbn [snd] in Hst1. lia.
Qed.

Lemma run_total_count opts (calls : list (Call num)) : forall st,
  Forall (fun kv => 1 <= count (snd kv)) st ->
  Forall (fun kv => 1 <= count (snd kv)) (run opts calls st) /\
  total_count (run opts calls st)
  <= total_count st + Z.of_nat (List.length calls) /\
  (map_size st + Z.of_nat (List.length calls) <= maxEndpoints opts ->
   total_count (run opts calls st)
   = total_count st + Z.of_nat (List.length calls)).
Proof.
  induction calls as [|c calls IH]; intros st Hst.
  - change (run opts [] st) with st. cbn [List.length].
    split; [exact Hst|]. split; [lia|]. intros _. lia.
  - change (run opts (c :: calls) st)
      with (run opts calls (snd (do_call opts c st))).
    unfold do_call.
    pose proof (incrementCount_counted opts (call_clock c) (call_method c)
                  (call_path c) (call_duration c) st Hst) as Hst'.
    pose proof (incrementCount_total_count opts (call_clock c)
                  (call_method c) (call_path c) (call_duration c) st) as Hsum.
    destruct (IH _ Hst') as (Hall & Hle & Heq).
    split; [exact Hall|]. cbn [List.length]. split.
    + assert (total_count (cleanupIfNeeded opts (scan_time (call_clock c)) st)
              <= total_count st).
      { destruct (cleanup_deletes opts (scan_time (call_clock c)) st)
          as [-> | (before & k & e & after & _ & -> & _)]; [lia|].
        now apply total_count_delete. }
      lia.
    + intros Hroom.
      assert (Hsame : cleanupIfNeeded opts (scan_time (call_clock c)) st = st).
      { destruct (cleanup_deletes opts (scan_time (call_clock c)) st)
          as [-> | (before & k & e & after & _ & _ & Hfull & _)];
          [reflexivity | lia]. }
      rewrite Hsame in Hsum. rewrite Heq; [lia|].
      assert (List.length (snd (incrementCount opts (call_clock c)
                                   (call_method c) (call_path c)
                                   (call_duration c) st))
              <= S (List.length st))%nat.
      { unfold incrementCount. cbn [snd]. rewrite Hsame.
        apply map_set_length. }
      unfold map_size in *. lia.
Qed.

End SummaryProperties.

(** X17: on a counter that started empty, [getSummary().totalRequests]
    never exceeds the number of [incrementCount] calls made, since an
    evicted entry takes its count with it, and is at least
    [totalEndpoints]; as long as the number of calls does not exceed
    [maxEndpoints], nothing is evicted and it is exactly the number of
    calls. *)
Theorem totalRequests_counts_calls
    {num : Type} {NumOps : Number num}
    (opts : CounterOptions) (calls : list (Call num)) :
  totalRequests (getSummary (run opts calls []))
  <= Z.of_nat (List.length calls) /\
  totalEndpoints (getSummary (run opts calls []))
  <= totalRequests (getSummary (run opts calls [])) /\
  (Z.of_nat (List.length calls) <= maxEndpoints opts ->
   totalRequests (getSummary (run opts calls []))
   = Z.of_nat (List.length calls)).
Proof.
  rewrite totalRequests_total_count.
  destruct (run_total_count opts calls [] (Forall_nil _)) as (Hall & Hle & Heq).
  change (total_count (@nil (string * EndpointStats num))) with 0 in *.
  split; [lia|]. split.
  - unfold getSummary. cbn [totalEndpoints]. now apply total_count_size.
  - intros Hroom. rewrite Heq; [lia|]. cbn. lia.
Qed.

(** ** Recency and counts over several calls *)

Section RecencyProperties.
Context {num : Type} {NumOps : Number num}.
Implicit Types (st : StatsMap num) (k : string) (opts : CounterOptions).

(** After a call at a time later than every earlier access, every entry but
    the one just recorded is older than it. *)
Lemma incrementCount_others_older opts clk meth pathname duration latest st :
  accessed_by latest st ->
  Forall (fun kv => fst kv = pathname \/ lastAccessedAt (snd kv) <= latest)
    (snd (incrementCount opts clk meth pathname duration st)).
Proof.
  intros Hst. unfold incrementCount. cbn [snd].
  apply map_set_Forall; [now left|].
  apply cleanup_Forall. eapply Forall_impl; [|exact Hst].
  intros kv H. now right.
Qed.

(** The count stored for [k] grows by at most one per call for [k]. *)
Lemma run_count_bounded opts k (calls : list (Call num)) : forall st,
  Forall (fun kv => 1 <= count (snd kv)) st ->
  count_of k (run opts calls st)
  <= count_of k st + Z.of_nat (calls_for k calls).
Proof.
  unfold calls_for.
  induction calls as [|c calls IH]; intros st Hst.
  - change (run opts [] st) with st. cbn. lia.
  - change (run opts (c :: calls) st)
      with (run opts calls (snd (do_call opts c st))).
    unfold do_call.
    pose proof (incrementCount_counted opts (call_clock c) (call_method c)
                  (call_path c) (call_duration c) st Hst) as Hst'.
    specialize (IH _ Hst').
    assert (Hclean : count_of k
                       (cleanupIfNeeded opts (scan_time (call_clock c)) st)
                     <= count_of k st).
    { unfold count_of.
      destruct (cleanup_get opts (scan_time (call_clock c)) st k) as [-> | ->];
        [lia|].
      destruct (map_get k st) as [e|] eqn:E; [|lia].
      apply map_get_In in E. rewrite Forall_forall in Hst.
      specialize (Hst _ E). cbn [snd] in Hst. lia. }
    cbn [filter].
    destruct (String.eqb_spec (call_path c) k) as [Hk | Hk].
    + assert (count_of k (snd (incrementCount opts (call_clock c)
                                (call_method c) (call_path c)
                                (call_duration c) st))
              = count_of k
                  (cleanupIfNeeded opts (scan_time (call_clock c)) st) + 1).
      { subst k. unfold count_of at 1. rewrite incrementCount_get_same.
        unfold prior_stats, count_of.
        destruct (map_get (call_path c) _); reflexivity. }
      cbn [List.length]. lia.
    + assert (count_of k (snd (incrementCount opts (call_clock c)
                                (call_method c) (call_path c)
                                (call_duration c) st))
              = count_of k
                  (cleanupIfNeeded opts (scan_time (call_clock c)) st)).
      { unfold count_of at 1.
        rewrite incrementCount_get_other by congruence. reflexivity. }
      lia.
Qed.

End RecencyProperties.

(** X20: the key just recorded is not the next victim. When a call records
    its key at a time later than every earlier access, and the store then
    holds at least two entries, no clean-up that follows directly removes
    the entry of that key, whatever the capacity and the time of the
    scan. *)
Theorem just_recorded_survives_cleanup
    {num : Type} {NumOps : Number num}
    (opts : CounterOptions) (clk : Clock) (meth pathname : string)
    (duration : num) (latest : Z) (st : StatsMap num)
    (opts' : CounterOptions) (now' : Z) :
  unique_keys st ->
  accessed_by latest st ->
  latest < update_time clk ->
  2 <= map_size (snd (incrementCount opts clk meth pathname duration st)) ->
  map_get pathname
    (cleanupIfNeeded opts' now'
       (snd (incrementCount opts clk meth pathname duration st)))
  = map_get pathname
      (snd (incrementCount opts clk meth pathname duration st)).
Proof.
  intros Hu Hst Hlate Hsize.
  pose proof (incrementCount_unique opts clk meth pathname duration st Hu)
    as Hu'.
  pose proof (incrementCount_others_older opts clk meth pathname duration
                latest st Hst) as Hold.
  pose proof (incrementCount_get_same opts clk meth pathname duration st)
    as Hget.
  set (st' := snd (incrementCount opts clk meth pathname duration st)) in *.
  destruct (cleanup_cases opts' now' st')
    as [-> | (before & k & e & after & Heq & -> & _ & Hb & Ha)];
    [reflexivity|].
  destruct (String.eqb_spec pathname k) as [<- | Hne];
    [|now apply map_get_delete_other].
  exfalso.
  assert (He : lastAccessedAt e = update_time clk).
  { rewrite Heq in Hget.
    rewrite map_get_middle in Hget by (rewrite <- Heq; exact Hu').
    injection Hget as ->. reflexivity. }
  assert (Hother : forall x, In x (before ++ after) ->
                     lastAccessedAt (snd x) <= latest).
  { intros x Hx. rewrite Forall_forall in Hold.
    destruct (Hold x) as [Hk | Ht]; [| |exact Ht].
    - rewrite Heq. apply in_app_or in Hx. apply in_or_app.
      destruct Hx; [now left | right; now right].
    - exfalso. unfold unique_keys in Hu'. rewrite Heq, map_app in Hu'.
      cbn [map fst] in Hu'. apply NoDup_remove_2 in Hu'. apply Hu'.
      rewrite <- map_app, <- Hk. now apply in_map. }
  unfold map_size in Hsize. rewrite Heq, length_app in Hsize.
  cbn [List.length] in Hsize.
  destruct before as [|x before].
  - destruct after as [|x after]; [cbn in Hsize; lia|].
    inversion Ha as [|? ? Hx _]; subst.
    specialize (Hother x (or_introl eq_refl)). lia.
  - inversion Hb as [|? ? Hx _]; subst.
    specialize (Hother x (or_introl eq_refl)). lia.
Qed.

(** ['/old'], recorded again at time 11, outlives a clean-up at capacity
    1. *)
Lemma just_recorded_survives_cleanup_witness :
  map_get "/old"
    (cleanupIfNeeded (capacity 1) 12
       (snd (incrementCount default_options (clock_at 11) "GET" "/old" ms100
               old_and_newer)))
  = map_get "/old"
      (snd (incrementCount default_options (clock_at 11) "GET" "/old" ms100
              old_and_newer)).
Proof.
  apply (just_recorded_survives_cleanup default_options (clock_at 11) "GET"
           "/old" ms100 6 old_and_newer (capacity 1) 12).
  - apply run_unique. constructor.
  - repeat constructor; vm_compute; discriminate.
  - vm_compute. reflexivity.
  - vm_compute. discriminate.
Defined.

(** X21: on a counter that started empty, the count stored for a key never
    exceeds the number of [incrementCount] calls made for that key. *)
Theorem count_at_most_calls_for_key
    {num : Type} {NumOps : Number num}
    (opts : CounterOptions) (k : string) (calls : list (Call num)) :
  count_of k (run opts calls []) <= Z.of_nat (calls_for k calls).
Proof.
  pose proof (run_count_bounded opts k calls [] (Forall_nil _)) as H.
  exact H.
Qed.
